(** * tools/refactor_errors.py: the call-style to field-style rewriter

    A shallow embedding of [refactor_file] and proofs about the
    parenthesis scan, the per-rule splice loop and the whole pass over
    [transformations]. *)

From Stdlib Require Import String Ascii.
From Stdlib Require Import NArith ZArith Arith Bool Lia.
From Stdlib Require Import List.
Import ListNotations.

Local Open Scope N_scope.

(** ** Text

    A Python [str] is a sequence of Unicode code points; a buffer is the
    list of them. *)

Definition char := N.
Definition buffer := list char.

Definition text (s : string) : buffer :=
  map N_of_ascii (list_ascii_of_string s).

Definition lparen : char := 40.
Definition rparen : char := 41.

(** [\s] of a [str] pattern: the code points [str.isspace] accepts. *)
Definition is_space (c : char) : bool :=
  ((0x09 <=? c) && (c <=? 0x0d)) || ((0x1c <=? c) && (c <=? 0x20))
  || (c =? 0x85) || (c =? 0xa0) || (c =? 0x1680)
  || ((0x2000 <=? c) && (c <=? 0x200a))
  || (c =? 0x2028) || (c =? 0x2029) || (c =? 0x202f) || (c =? 0x205f)
  || (c =? 0x3000).

(** [new_content[a:b]] for [0 <= a], [0 <= b]. *)
Definition slice (l : buffer) (a b : nat) : buffer :=
  firstn (b - a) (skipn a l).

(** ** The parenthesis scan (lines 37-44)

    [open_parens] is a Python integer, [idx] an index into the buffer.
    One unit of fuel pays for one iteration of the inner [while];
    [find_matching_close] gives it [len(new_content) - start_idx], the
    number of characters left. *)

Definition bump (c : char) (open_parens : Z) : Z :=
  if c =? lparen then (open_parens + 1)%Z
  else if c =? rparen then (open_parens - 1)%Z
  else open_parens.

Fixpoint scan_loop (fuel : nat) (new_content : buffer) (idx : nat)
    (open_parens : Z) : nat * Z :=
  match fuel with
  | O => (idx, open_parens)
  | S fuel' =>
      match nth_error new_content idx with
      | Some c =>
          if (0 <? open_parens)%Z
          then scan_loop fuel' new_content (S idx) (bump c open_parens)
          else (idx, open_parens)
      | None => (idx, open_parens)
      end
  end.

Definition find_matching_close (new_content : buffer) (start_idx : nat)
    : nat * Z :=
  scan_loop (length new_content - start_idx) new_content start_idx 1%Z.

(** The same scan by recursion on the characters still to be read. *)
Fixpoint scan_list (l : buffer) (idx : nat) (open_parens : Z) : nat * Z :=
  match l with
  | [] => (idx, open_parens)
  | c :: l' =>
      if (0 <? open_parens)%Z
      then scan_list l' (S idx) (bump c open_parens)
      else (idx, open_parens)
  end.

(** Nesting depth after reading [l], the opening parenthesis counted. *)
Fixpoint depth (l : buffer) (d : Z) : Z :=
  match l with
  | [] => d
  | c :: l' => depth l' (bump c d)
  end.

(** ** Rules (lines 17-22) *)

Record rule := Rule {
  old_variant : buffer;
  new_variant : buffer;
  field_name : buffer
}.

Definition transformations : list rule :=
  [ Rule (text "Validation") (text "Validation") (text "reason");
    Rule (text "InternalError") (text "Internal") (text "message");
    Rule (text "AssetError") (text "Asset") (text "message");
    Rule (text "MalformedEnvToml") (text "EnvTomlError") (text "message") ].

(** ** The pattern [(AppError::<old_variant>)\s*\(] (line 28)

    [old_variant] is spliced into the regular expression as it is; for
    the names the script uses (letters only) the expression denotes the
    literal text, and that is what is modelled.  A match attempted at a
    fixed position is unique: the literal, then the longest run of
    whitespace, then an opening parenthesis (which is not whitespace, so
    backtracking into the run never helps). *)

Definition qualifier : buffer := text "AppError::".

Fixpoint strip_prefix (p l : buffer) : option buffer :=
  match p, l with
  | [], _ => Some l
  | _ :: _, [] => None
  | x :: p', y :: l' => if x =? y then strip_prefix p' l' else None
  end.

Fixpoint skip_spaces (l : buffer) : nat :=
  match l with
  | c :: l' => if is_space c then S (skip_spaces l') else O
  | [] => O
  end.

(** Length of the match that starts at the head of [l], if there is one. *)
Definition match_here (old : buffer) (l : buffer) : option nat :=
  match strip_prefix (qualifier ++ old) l with
  | None => None
  | Some rest =>
      let k := skip_spaces rest in
      match nth_error rest k with
      | Some c =>
          if c =? lparen
          then Some (length (qualifier ++ old) + k + 1)%nat
          else None
      | None => None
      end
  end.

Arguments match_here : simpl never.

(** [pattern.search]: the leftmost position with a match, as
    [(match.start(), match.end())]. *)
Fixpoint search_from (old : buffer) (l : buffer) (pos : nat)
    : option (nat * nat) :=
  match match_here old l with
  | Some n => Some (pos, (pos + n)%nat)
  | None =>
      match l with
      | [] => None
      | _ :: l' => search_from old l' (S pos)
      end
  end.

Definition pattern_search (old : buffer) (new_content : buffer)
    : option (nat * nat) :=
  search_from old new_content 0.

(** ** One iteration of the [while True] loop (lines 31-61)

    [Spliced] carries the buffer assigned at line 58, [Unbalanced] the
    line printed at line 60 (the loop then breaks), [NoMatch] is the
    break of line 33.  Indices are natural numbers: where the slice of
    line 48 is taken [open_parens] is 0, which takes at least one turn of
    the scan, so [idx - 1] is not negative. *)

Definition replacement (r : rule) (arg : buffer) : buffer :=
  text "AppError::" ++ new_variant r ++ text " { " ++ field_name r
    ++ text ": " ++ arg ++ text " }".

Definition error_line (filepath : buffer) : buffer :=
  text "Error: Could not find matching parenthesis in " ++ filepath.

Inductive iteration :=
| NoMatch
| Spliced (new_content : buffer)
| Unbalanced (line : buffer).

Definition iterate (filepath : buffer) (r : rule) (new_content : buffer)
    : iteration :=
  match pattern_search (old_variant r) new_content with
  | None => NoMatch
  | Some (m_start, m_end) =>
      let start_idx := m_end in
      let '(idx, open_parens) := find_matching_close new_content start_idx in
      if (open_parens =? 0)%Z
      then
        let arg := slice new_content start_idx (idx - 1) in
        Spliced (firstn m_start new_content ++ replacement r arg
                   ++ skipn idx new_content)
      else Unbalanced (error_line filepath)
  end.

(** ** The loop of one rule

    The result is the buffer the loop leaves and the lines it printed.
    One unit of fuel pays for one iteration; [None] means the fuel ran
    out.  Every splice of a rule whose replacement text has no opening
    parenthesis removes one from the buffer, so [rule_pass] hands out one
    unit more than the buffer has opening parentheses
    (see [rule_loop_enough_fuel] and [rule_loop_more_fuel]). *)

Fixpoint rule_loop (fuel : nat) (filepath : buffer) (r : rule)
    (new_content : buffer) : option (buffer * list buffer) :=
  match fuel with
  | O => None
  | S fuel' =>
      match iterate filepath r new_content with
      | NoMatch => Some (new_content, [])
      | Spliced new_content' => rule_loop fuel' filepath r new_content'
      | Unbalanced line => Some (new_content, [line])
      end
  end.

Definition count_open (l : buffer) : nat :=
  length (filter (N.eqb lparen) l).

Definition rule_pass (filepath : buffer) (r : rule) (new_content : buffer)
    : option (buffer * list buffer) :=
  rule_loop (S (count_open new_content)) filepath r new_content.

(** ** The [for] loop over the rules (line 26) and [refactor_file] *)

Fixpoint apply_rules (rules : list rule) (filepath : buffer)
    (new_content : buffer) : option (buffer * list buffer) :=
  match rules with
  | [] => Some (new_content, [])
  | r :: rules' =>
      match rule_pass filepath r new_content with
      | None => None
      | Some (new_content', out) =>
          match apply_rules rules' filepath new_content' with
          | None => None
          | Some (final, out') => Some (final, out ++ out')
          end
      end
  end.

Fixpoint buffer_eqb (a b : buffer) : bool :=
  match a, b with
  | [], [] => true
  | x :: a', y :: b' => (x =? y) && buffer_eqb a' b'
  | _, _ => false
  end.

(** What one call does to the world: the lines printed, in order, and the
    text written back to the file, if any. *)
Record outcome := Outcome {
  printed : list buffer;
  written : option buffer
}.

Definition refactor_file (filepath : buffer) (content : buffer)
    : option outcome :=
  match apply_rules transformations filepath content with
  | None => None
  | Some (new_content, out) =>
      if buffer_eqb new_content content
      then Some (Outcome out None)
      else Some (Outcome (out ++ [text "Updating " ++ filepath])
                         (Some new_content))
  end.

(** ** Vocabulary of the statements *)

(** *** Characters and text *)

(** A run of whitespace. *)
Definition spaces (ws : buffer) : Prop :=
  Forall (fun c => is_space c = true) ws.

(** Text without parentheses. *)
Definition plain (l : buffer) : Prop :=
  Forall (fun c => c <> lparen /\ c <> rparen) l.

Definition paren_free (l : buffer) : bool :=
  forallb (fun c => negb (c =? lparen) && negb (c =? rparen)) l.

(** An identifier: letters, digits and underscores, at least one. *)
Definition ident_char (c : char) : bool :=
  ((0x41 <=? c) && (c <=? 0x5a)) || ((0x61 <=? c) && (c <=? 0x7a))
  || ((0x30 <=? c) && (c <=? 0x39)) || (c =? 0x5f).

Definition identifier (l : buffer) : bool :=
  match l with
  | [] => false
  | _ :: _ => forallb ident_char l
  end.

Definition word_or_space (c : char) : bool := ident_char c || is_space c.

(** [l] does not go on with an identifier character. *)
Definition stops (l : buffer) : Prop :=
  match l with
  | [] => True
  | c :: _ => ident_char c = false
  end.

(** *** Rules like those of the script

    The old variant is an identifier, so the regular expression is its
    literal text, and neither the new variant nor the field name brings a
    parenthesis into the buffer. *)
Definition tidy (r : rule) : bool :=
  identifier (old_variant r)
  && paren_free (new_variant r) && paren_free (field_name r).

Definition all_tidy (rules : list rule) : Prop :=
  Forall (fun r => tidy r = true) rules.

(** *** Scans *)

(** The count the scan of [l] ends with, from count [c]. *)
Definition final (l : buffer) (c : Z) : Z := snd (scan_list l 0 c).

(** Reading [l] with one parenthesis open comes to the closing one. *)
Definition closes (l : buffer) : Prop := final l 1%Z = 0%Z.

(** An argument text: read with one parenthesis open, the scan goes
    through all of it and is back at one open parenthesis at its end, so
    every parenthesis of [arg] is closed inside [arg]. *)
Definition nested (arg : buffer) : Prop :=
  scan_list arg 0 1%Z = (length arg, 1%Z).

(** *** Matches and splices *)

(** A buffer with the text of a match of [old] after [pre], then [arg]
    and a closing parenthesis. *)
Definition occurrence (old pre ws arg suf : buffer) : buffer :=
  pre ++ (qualifier ++ old) ++ ws ++ lparen :: arg ++ rparen :: suf.

(** The replacement text around the argument, and the buffer a splice
    leaves. *)
Definition head_text (r : rule) : buffer :=
  qualifier ++ new_variant r ++ text " { " ++ field_name r ++ text ": ".

Definition tail_text : buffer := text " }".

Definition spliced (r : rule) (pre arg suf : buffer) : buffer :=
  pre ++ head_text r ++ arg ++ tail_text ++ suf.

(** The characters of a match that occupies positions [s .. s+n-1] of
    [b]: the qualifier, then identifier characters and whitespace, and an
    opening parenthesis as the last one. *)
Definition window (b : buffer) (s n : nat) : Prop :=
  (12 <= n)%nat
  /\ (forall o, (o < 10)%nat -> nth_error b (s + o) = nth_error qualifier o)
  /\ (exists c, nth_error b (s + 10) = Some c /\ ident_char c = true)
  /\ (forall i, (s + 10 <= i < s + n - 1)%nat ->
        exists c, nth_error b i = Some c /\ word_or_space c = true)
  /\ nth_error b (s + n - 1) = Some lparen.

(** *** Iterations *)

(** The next iteration for [old] would splice: the leftmost match has a
    closing parenthesis. *)
Definition fires (old : buffer) (b : buffer) : bool :=
  match pattern_search old b with
  | None => false
  | Some (_, m_end) => (snd (find_matching_close b m_end) =? 0)%Z
  end.

(** A match of [old] starts at [s] and the scan from its end runs out of
    buffer with the parenthesis still open. *)
Definition unterminated_at (old b : buffer) (s : nat) : Prop :=
  exists n,
    match_here old (skipn s b) = Some n
    /\ snd (find_matching_close b (s + n)) <> 0%Z.

(** *** Counting *)

Definition count_close (l : buffer) : nat :=
  length (filter (N.eqb rparen) l).

(** The lines the pass prints, read off the buffer it ends with: the
    error line once for each rule whose pattern still matches. *)
Definition error_lines (filepath : buffer) (rules : list rule)
    (final_content : buffer) : list buffer :=
  flat_map
    (fun r =>
       match pattern_search (old_variant r) final_content with
       | None => []
       | Some _ => [error_line filepath]
       end)
    rules.

(** ** Files: [refactor_file] with its reads and writes, and [main]

    The file system is the text [f.read()] returns for each path that
    can be opened; [open(filepath, 'r')] on another path raises, which
    ends the run.  [open(filepath, 'w')] and [f.write] replace the text
    of a path.  What [os.walk("src")] yields is an argument of [main]:
    the triples (root, dirs, files), in order. *)

Record world := World {
  disk : buffer -> option buffer;
  console : list buffer
}.

Inductive run :=
| Finished (w : world)
| Raised (w : world)
| OutOfFuel.

Definition store (d : buffer -> option buffer) (path new_content : buffer)
    : buffer -> option buffer :=
  fun q => if buffer_eqb q path then Some new_content else d q.

Definition path_eq_dec : forall p q : buffer, {p = q} + {p <> q} :=
  list_eq_dec N.eq_dec.

(** Lines 4-6 and 63-66 around the pass. *)
Definition refactor_file_at (filepath : buffer) (w : world) : run :=
  match disk w filepath with
  | None => Raised w
  | Some content =>
      match refactor_file filepath content with
      | None => OutOfFuel
      | Some o =>
          Finished
            (World
               (match written o with
                | Some new_content => store (disk w) filepath new_content
                | None => disk w
                end)
               (console w ++ printed o))
      end
  end.

(** [file.endswith(suffix)]. *)
Definition ends_with (suffix s : buffer) : bool :=
  buffer_eqb (skipn (length s - length suffix) s) suffix.

(** [os.path.join(root, file)] of [posixpath], for two arguments. *)
Definition sep : char := 47.

Definition starts_with_sep (b : buffer) : bool :=
  match b with
  | c :: _ => c =? sep
  | [] => false
  end.

Definition path_join (a b : buffer) : buffer :=
  if starts_with_sep b then b
  else
    match a with
    | [] => a ++ b
    | _ :: _ => if ends_with [sep] a then a ++ b else a ++ sep :: b
    end.

(** Lines 68-72. *)
Fixpoint each_file (root : buffer) (files : list buffer) (w : world) : run :=
  match files with
  | [] => Finished w
  | file :: files' =>
      if ends_with (text ".rs") file
      then
        match refactor_file_at (path_join root file) w with
        | Finished w' => each_file root files' w'
        | stopped => stopped
        end
      else each_file root files' w
  end.

Fixpoint main (walk : list (buffer * list buffer * list buffer))
    (w : world) : run :=
  match walk with
  | [] => Finished w
  | (root, _, files) :: walk' =>
      match each_file root files w with
      | Finished w' => main walk' w'
      | stopped => stopped
      end
  end.

(** The paths [main] hands to [refactor_file], in order. *)
Definition targets (walk : list (buffer * list buffer * list buffer))
    : list buffer :=
  flat_map
    (fun '(root, _, files) =>
       map (path_join root) (filter (ends_with (text ".rs")) files))
    walk.

Fixpoint run_paths (paths : list buffer) (w : world) : run :=
  match paths with
  | [] => Finished w
  | p :: paths' =>
      match refactor_file_at p w with
      | Finished w' => run_paths paths' w'
      | stopped => stopped
      end
  end.

(** Text on which no rule of the script would splice. *)
Definition settled (content : buffer) : Prop :=
  Forall (fun r => fires (old_variant r) content = false) transformations.

(** A small tree for the examples: [src/lib.rs] has a call to migrate,
    [src/notes.txt] has one too but is no Rust file, [src/app/error.rs]
    has none. *)
Definition sample_walk : list (buffer * list buffer * list buffer) :=
  [ (text "src", [text "app"], [text "lib.rs"; text "notes.txt"]);
    (text "src/app", [], [text "error.rs"]) ].

Definition sample_world : world :=
  World
    (store
       (store
          (store (fun _ => None)
             (text "src/lib.rs") (text "fn f() { AppError::Validation(x) }"))
          (text "src/notes.txt") (text "AppError::Validation(x)"))
       (text "src/app/error.rs") (text "enum AppError {}"))
    [].

(** Two texts with their parentheses at the same places. *)
Definition same_parens (l1 l2 : buffer) : Prop :=
  Forall2
    (fun a b => (a = lparen <-> b = lparen) /\ (a = rparen <-> b = rparen))
    l1 l2.

(** * Proofs *)

(** ** The scan *)

Section Scan.

Local Open Scope nat_scope.

Lemma scan_loop_list (fuel : nat) (buf : buffer) :
  forall idx c,
    length buf - idx <= fuel ->
    scan_loop fuel buf idx c = scan_list (skipn idx buf) idx c.
Proof.
  induction fuel as [|fuel IH]; intros idx c Hfuel; simpl.
  - rewrite skipn_all2 by lia. reflexivity.
  - destruct (nth_error buf idx) as [x|] eqn:Hx.
    + apply nth_error_split in Hx as (l1 & l2 & -> & <-).
      replace (skipn (length l1) (l1 ++ x :: l2)) with (x :: l2)
        by (rewrite skipn_app, skipn_all, Nat.sub_diag; reflexivity).
      simpl. destruct (0 <? c)%Z; [|reflexivity].
      rewrite IH by (rewrite length_app in *; simpl in *; lia).
      replace (skipn (S (length l1)) (l1 ++ x :: l2)) with l2; [reflexivity|].
      rewrite skipn_app, skipn_all2 by lia.
      replace (S (length l1) - length l1) with 1 by lia. reflexivity.
    + apply nth_error_None in Hx. rewrite skipn_all2 by lia. reflexivity.
Qed.

(** More fuel than characters left changes nothing: the inner loop ends
    by its own condition. *)
Lemma scan_loop_more_fuel (buf : buffer) (idx : nat) (c : Z) (fuel : nat) :
  length buf - idx <= fuel ->
  scan_loop fuel buf idx c = scan_loop (length buf - idx) buf idx c.
Proof.
  intros H. rewrite !scan_loop_list by lia. reflexivity.
Qed.

Lemma find_matching_close_list (buf : buffer) (start : nat) :
  find_matching_close buf start = scan_list (skipn start buf) start 1%Z.
Proof. unfold find_matching_close. apply scan_loop_list. lia. Qed.

Lemma scan_list_shift (l : buffer) :
  forall i c,
    scan_list l i c
    = (i + fst (scan_list l 0 c), snd (scan_list l 0 c)).
Proof.
  induction l as [|x l IH]; intros i c; simpl.
  - f_equal. lia.
  - destruct (0 <? c)%Z; simpl.
    + rewrite (IH (S i)), (IH 1). simpl. f_equal. lia.
    + f_equal. lia.
Qed.

Lemma scan_list_app (l1 l2 : buffer) :
  forall i c,
    scan_list (l1 ++ l2) i c
    = if (0 <? snd (scan_list l1 i c))%Z
      then scan_list l2 (fst (scan_list l1 i c)) (snd (scan_list l1 i c))
      else scan_list l1 i c.
Proof.
  induction l1 as [|x l1 IH]; intros i c; simpl.
  - destruct (0 <? c)%Z eqn:Hc; [reflexivity|].
    destruct l2; simpl; [reflexivity|]. rewrite Hc. reflexivity.
  - destruct (0 <? c)%Z eqn:Hc; simpl.
    + apply IH.
    + rewrite Hc. reflexivity.
Qed.

Lemma scan_list_bounds (l : buffer) :
  forall i c,
    i <= fst (scan_list l i c) <= i + length l.
Proof.
  induction l as [|x l IH]; intros i c; simpl; [lia|].
  destruct (0 <? c)%Z; simpl; [|lia].
  specialize (IH (S i) (bump x c)). lia.
Qed.

Lemma bump_cases (x : char) (c : Z) :
  (x = lparen /\ bump x c = (c + 1)%Z)
  \/ (x = rparen /\ bump x c = (c - 1)%Z)
  \/ (x <> lparen /\ x <> rparen /\ bump x c = c).
Proof.
  unfold bump.
  destruct (N.eqb_spec x lparen) as [->|H1]; [left; split; reflexivity|].
  destruct (N.eqb_spec x rparen) as [->|H2]; [right; left; split; reflexivity|].
  right; right. repeat split; assumption.
Qed.

(** The count the scan stops with is never negative, and it is the depth
    of what was read. *)
Lemma scan_list_depth (l : buffer) :
  forall i c,
    (0 <= c)%Z ->
    (0 <= snd (scan_list l i c))%Z
    /\ snd (scan_list l i c)
       = depth (firstn (fst (scan_list l i c) - i) l) c
    /\ (forall k, k < fst (scan_list l i c) - i ->
          (0 < depth (firstn k l) c)%Z)
    /\ (snd (scan_list l i c) = 0%Z
        \/ fst (scan_list l i c) = i + length l).
Proof.
  induction l as [|x l IH]; intros i c Hc; simpl.
  - rewrite Nat.sub_diag. simpl.
    split; [lia|]. split; [reflexivity|]. split; [intros; lia|right; lia].
  - destruct (0 <? c)%Z eqn:Hpos; simpl.
    + apply Z.ltb_lt in Hpos.
      assert (Hb : (0 <= bump x c)%Z)
        by (destruct (bump_cases x c) as [[_ ->]|[[_ ->]|(_ & _ & ->)]]; lia).
      destruct (IH (S i) (bump x c) Hb) as (H1 & H2 & H3 & H4).
      pose proof (scan_list_bounds l (S i) (bump x c)) as Hbd.
      replace (fst (scan_list l (S i) (bump x c)) - i)
        with (S (fst (scan_list l (S i) (bump x c)) - S i)) by lia.
      simpl. split; [assumption|]. split; [assumption|]. split.
      * intros [|k] Hk; simpl; [lia|]. apply H3. lia.
      * destruct H4 as [H4|H4]; [left; assumption|right; lia].
    + apply Z.ltb_ge in Hpos. rewrite Nat.sub_diag. simpl.
      split; [lia|]. split; [reflexivity|]. split; [intros; lia|left; lia].
Qed.

Lemma scan_list_last (l : buffer) :
  forall i c,
    (0 < c)%Z ->
    snd (scan_list l i c) = 0%Z ->
    i < fst (scan_list l i c)
    /\ nth_error l (fst (scan_list l i c) - i - 1) = Some rparen.
Proof.
  induction l as [|x l IH]; intros i c Hc H0; simpl in *; [lia|].
  assert (Hpos : (0 <? c)%Z = true) by (apply Z.ltb_lt; assumption).
  rewrite Hpos in *.
  pose proof (scan_list_bounds l (S i) (bump x c)) as Hbd.
  split; [lia|].
  destruct (Z.eq_dec (bump x c) 0) as [Hz|Hnz].
  - assert (Hstop : scan_list l (S i) (bump x c) = (S i, bump x c))
      by (rewrite Hz; destruct l; reflexivity).
    assert (Hx : x = rparen)
      by (destruct (bump_cases x c) as [[_ E]|[[E _]|(_ & _ & E)]];
          [lia|assumption|lia]).
    rewrite Hstop. cbn [fst]. replace (S i - i - 1) with 0 by lia.
    rewrite Hx. reflexivity.
  - assert (Hb : (0 < bump x c)%Z)
      by (destruct (bump_cases x c) as [[_ E]|[[_ E]|(_ & _ & E)]]; lia).
    destruct (IH (S i) (bump x c) Hb H0) as [Hlt Hn].
    replace (fst (scan_list l (S i) (bump x c)) - i - 1)
      with (S (fst (scan_list l (S i) (bump x c)) - S i - 1)) by lia.
    exact Hn.
Qed.

End Scan.

(** ** The pattern *)

Section Pattern.

Local Open Scope nat_scope.

Lemma lparen_not_space : is_space lparen = false.
Proof. reflexivity. Qed.

Lemma strip_prefix_app (p rest : buffer) :
  strip_prefix p (p ++ rest) = Some rest.
Proof.
  induction p as [|x p IH]; simpl; [reflexivity|].
  rewrite N.eqb_refl. exact IH.
Qed.

Lemma strip_prefix_inv (p : buffer) :
  forall l rest, strip_prefix p l = Some rest -> l = p ++ rest.
Proof.
  induction p as [|x p IH]; intros l rest H; simpl in *.
  - congruence.
  - destruct l as [|y l]; [discriminate|].
    destruct (N.eqb_spec x y) as [->|]; [|discriminate].
    f_equal. apply IH. exact H.
Qed.

Lemma skip_spaces_app (ws : buffer) (c : char) (rest : buffer) :
  spaces ws -> is_space c = false ->
  skip_spaces (ws ++ c :: rest) = length ws.
Proof.
  intros Hws Hc. induction Hws as [|x ws Hx _ IH]; simpl.
  - rewrite Hc. reflexivity.
  - rewrite Hx, IH. reflexivity.
Qed.

Lemma skip_spaces_split (l : buffer) :
  spaces (firstn (skip_spaces l) l)
  /\ skip_spaces l <= length l.
Proof.
  induction l as [|x l [IH1 IH2]]; simpl.
  - split; [constructor|lia].
  - destruct (is_space x) eqn:Hx; simpl.
    + split; [constructor; assumption|lia].
    + split; [constructor|lia].
Qed.

(** A match at the head of [l]: the literal, a run of whitespace and an
    opening parenthesis. *)
Lemma match_here_intro (old ws rest : buffer) :
  spaces ws ->
  match_here old ((qualifier ++ old) ++ ws ++ lparen :: rest)
  = Some (length (qualifier ++ old) + length ws + 1).
Proof.
  intros Hws. unfold match_here.
  rewrite strip_prefix_app. cbv zeta.
  rewrite (skip_spaces_app ws lparen rest Hws lparen_not_space).
  rewrite nth_error_app2, Nat.sub_diag by lia. simpl. reflexivity.
Qed.

Lemma match_here_inv (old l : buffer) (n : nat) :
  match_here old l = Some n ->
  exists ws rest,
    l = (qualifier ++ old) ++ ws ++ lparen :: rest
    /\ spaces ws
    /\ n = length (qualifier ++ old) + length ws + 1.
Proof.
  unfold match_here. intros H.
  destruct (strip_prefix (qualifier ++ old) l) as [rest|] eqn:Hp;
    [|discriminate].
  apply strip_prefix_inv in Hp. cbv zeta in H.
  destruct (nth_error rest (skip_spaces rest)) as [c|] eqn:Hc;
    [|discriminate].
  destruct (N.eqb_spec c lparen) as [->|]; [|discriminate].
  injection H as <-.
  apply nth_error_split in Hc as (ws & rest' & Hrest & Hlen).
  subst rest. exists ws, rest'. split; [|split].
  - exact Hp.
  - destruct (skip_spaces_split (ws ++ lparen :: rest')) as [Hs _].
    rewrite <- Hlen in Hs.
    rewrite firstn_app, firstn_all, Nat.sub_diag in Hs.
    simpl in Hs. rewrite app_nil_r in Hs. exact Hs.
  - rewrite length_app. simpl. lia.
Qed.

(** [search_from] returns the leftmost position where a match starts. *)
Lemma search_from_some (old : buffer) (l : buffer) :
  forall pos s e,
    search_from old l pos = Some (s, e) ->
    exists k n,
      s = pos + k /\ e = s + n
      /\ match_here old (skipn k l) = Some n
      /\ (forall j, j < k -> match_here old (skipn j l) = None).
Proof.
  induction l as [|x l IH]; intros pos s e H; cbn [search_from] in H.
  - destruct (match_here old []) as [n|] eqn:Hm; [|discriminate].
    injection H as <- <-. exists 0, n. simpl.
    repeat split; try lia; try assumption; intros; lia.
  - destruct (match_here old (x :: l)) as [n|] eqn:Hm.
    + injection H as <- <-. exists 0, n. simpl.
      repeat split; try lia; try assumption; intros; lia.
    + apply IH in H as (k & n & -> & -> & Hk & Hnone).
      exists (S k), n. simpl. repeat split; try lia; try assumption.
      intros [|j] Hj; simpl; [assumption|]. apply Hnone. lia.
Qed.

Lemma search_from_none (old : buffer) (l : buffer) :
  forall pos,
    search_from old l pos = None ->
    forall j, match_here old (skipn j l) = None.
Proof.
  induction l as [|x l IH]; intros pos H j; cbn [search_from] in H.
  - destruct (match_here old []) eqn:Hm; [discriminate|].
    destruct j; assumption.
  - destruct (match_here old (x :: l)) eqn:Hm; [discriminate|].
    destruct j as [|j]; simpl; [assumption|]. exact (IH _ H j).
Qed.

Lemma search_from_intro (old : buffer) (l : buffer) :
  forall pos k n,
    match_here old (skipn k l) = Some n ->
    (forall j, j < k -> match_here old (skipn j l) = None) ->
    search_from old l pos = Some (pos + k, pos + k + n).
Proof.
  induction l as [|x l IH]; intros pos k n Hk Hnone.
  - assert (Hm : match_here old [] = Some n) by (destruct k; exact Hk).
    assert (k = 0) as ->.
    { destruct k; [reflexivity|]. specialize (Hnone 0 ltac:(lia)).
      simpl in Hnone. congruence. }
    cbn [search_from]. rewrite Hm. do 2 f_equal; lia.
  - destruct k as [|k].
    + simpl in Hk. cbn [search_from]. rewrite Hk. do 2 f_equal; lia.
    + pose proof (Hnone 0 ltac:(lia)) as H0. simpl in H0.
      cbn [search_from]. rewrite H0. simpl in Hk.
      rewrite (IH (S pos) k n Hk).
      * do 2 f_equal; lia.
      * intros j Hj. apply (Hnone (S j)). lia.
Qed.

Lemma search_from_none_intro (old : buffer) (l : buffer) :
  forall pos,
    (forall j, match_here old (skipn j l) = None) ->
    search_from old l pos = None.
Proof.
  induction l as [|x l IH]; intros pos Hnone; cbn [search_from].
  - pose proof (Hnone 0) as H0. simpl in H0. rewrite H0. reflexivity.
  - pose proof (Hnone 0) as H0. simpl in H0. rewrite H0.
    apply IH. intros j. exact (Hnone (S j)).
Qed.

End Pattern.

(** ** Scanning an argument *)

Section Nested.

Local Open Scope nat_scope.

Lemma bump_add (x : char) (c k : Z) : bump x (c + k) = (bump x c + k)%Z.
Proof.
  unfold bump. destruct (x =? lparen)%N; [lia|].
  destruct (x =? rparen)%N; lia.
Qed.

Lemma bump_rparen (c : Z) : bump rparen c = (c - 1)%Z.
Proof. reflexivity. Qed.

Lemma bump_lparen (c : Z) : bump lparen c = (c + 1)%Z.
Proof. reflexivity. Qed.

Lemma scan_list_stuck (l : buffer) (i : nat) (c : Z) :
  (c <= 0)%Z -> scan_list l i c = (i, c).
Proof.
  intros Hc. destruct l; simpl; [reflexivity|].
  destruct (Z.ltb_spec 0 c); [lia|reflexivity].
Qed.

Lemma scan_list_moves (x : char) (l : buffer) (i : nat) (c : Z) :
  (0 < c)%Z -> i < fst (scan_list (x :: l) i c).
Proof.
  intros Hc. simpl. destruct (Z.ltb_spec 0 c); [|lia].
  pose proof (scan_list_bounds l (S i) (bump x c)). lia.
Qed.

(** A scan that runs through all of [l] and stays positive does the same
    from any higher count. *)
Lemma scan_list_lift (l : buffer) :
  forall i c c' k,
    (0 < c)%Z -> (0 <= k)%Z -> (0 < c')%Z ->
    scan_list l 0 c = (length l, c') ->
    scan_list l i (c + k) = (i + length l, (c' + k)%Z).
Proof.
  induction l as [|x l IH]; intros i c c' k Hc Hk Hc' H; simpl in *.
  - injection H as <-. f_equal. lia.
  - destruct (Z.ltb_spec 0 c); [|lia].
    destruct (Z.ltb_spec 0 (c + k)); [|lia].
    rewrite scan_list_shift in H. injection H as Hlen Hsnd.
    assert (Hb : (0 < bump x c)%Z).
    { destruct (Z.ltb_spec 0 (bump x c)) as [|Hle]; [assumption|].
      rewrite (scan_list_stuck l 0 _ Hle) in Hlen, Hsnd.
      simpl in Hsnd. lia. }
    rewrite bump_add.
    rewrite (IH (S i) (bump x c) c' k Hb Hk Hc').
    + f_equal. lia.
    + rewrite <- Hsnd.
      replace (length l) with (fst (scan_list l 0 (bump x c))) at 1 by lia.
      apply surjective_pairing.
Qed.

Lemma nested_scan (arg : buffer) (i : nat) (c : Z) :
  nested arg -> (0 < c)%Z ->
  scan_list arg i c = (i + length arg, c).
Proof.
  intros Hn Hc.
  pose proof (scan_list_lift arg i 1 1 (c - 1)
                ltac:(lia) ltac:(lia) ltac:(lia) Hn) as H.
  replace (1 + (c - 1))%Z with c in H by lia. exact H.
Qed.

(** Reading a nested argument and its closing parenthesis: the scan stops
    just past that parenthesis. *)
Lemma nested_closes (arg suf : buffer) (i : nat) :
  nested arg ->
  scan_list (arg ++ rparen :: suf) i 1%Z = (i + length arg + 1, 0%Z).
Proof.
  intros Hn. rewrite scan_list_app, (nested_scan arg i 1 Hn) by lia.
  simpl. rewrite bump_rparen. rewrite (scan_list_stuck suf _ _) by lia.
  f_equal. lia.
Qed.

(** Conversely, where the scan stops at count 0 the text read before the
    last character is a nested argument and that character closes it. *)
Lemma scan_list_closed_inv (l : buffer) (i idx : nat) :
  scan_list l i 1%Z = (idx, 0%Z) ->
  exists arg suf,
    l = arg ++ rparen :: suf /\ nested arg /\ idx = i + length arg + 1.
Proof.
  intros H.
  pose proof (scan_list_last l i 1 ltac:(lia)) as Hlast.
  rewrite H in Hlast. simpl in Hlast.
  destruct (Hlast eq_refl) as [Hlt Hnth].
  apply nth_error_split in Hnth as (arg & suf & -> & Hlen).
  exists arg, suf. split; [reflexivity|]. split; [|lia].
  rewrite scan_list_app in H.
  pose proof (scan_list_depth arg i 1 ltac:(lia)) as (Hge & _ & _ & Hend).
  pose proof (scan_list_bounds arg i 1) as Hbd.
  destruct (Z.ltb_spec 0 (snd (scan_list arg i 1))) as [Hpos|Hle].
  - destruct Hend as [Hz|Hfst]; [lia|].
    rewrite Hfst in H. simpl in H. rewrite bump_rparen in H.
    destruct (Z.ltb_spec 0 (snd (scan_list arg i 1))); [|lia].
    assert (Hone : snd (scan_list arg i 1) = 1%Z).
    { destruct (Z.eq_dec (snd (scan_list arg i 1)) 1) as [|Hne];
        [assumption|].
      destruct suf as [|y suf].
      - simpl in H. injection H as _ H. lia.
      - pose proof (scan_list_moves y suf (S (i + length arg))
                      (snd (scan_list arg i 1) - 1) ltac:(lia)) as Hm.
        rewrite H in Hm. simpl in Hm. lia. }
    unfold nested. rewrite scan_list_shift in Hfst, Hone.
    simpl in Hfst, Hone.
    rewrite (surjective_pairing (scan_list arg 0 1)). f_equal; lia.
  - rewrite H in Hbd. simpl in Hbd. rewrite H in Hle. simpl in Hle.
    assert (Hfst : fst (scan_list arg i 1) = idx) by (rewrite H; reflexivity).
    lia.
Qed.

End Nested.

(** ** One iteration *)

Section Iteration.

Local Open Scope nat_scope.

Lemma skipn_nonempty_length (b : buffer) (k : nat) :
  skipn k b <> [] -> length (firstn k b) = k.
Proof.
  intros H. apply firstn_length_le.
  destruct (Nat.le_gt_cases k (length b)) as [|Hgt]; [assumption|].
  rewrite skipn_all2 in H by lia. contradiction.
Qed.

Lemma skipn_app_exact (pre l : buffer) : skipn (length pre) (pre ++ l) = l.
Proof. rewrite skipn_app, skipn_all, Nat.sub_diag. reflexivity. Qed.

Lemma firstn_app_exact (pre l : buffer) : firstn (length pre) (pre ++ l) = pre.
Proof.
  rewrite firstn_app, firstn_all, Nat.sub_diag. simpl. apply app_nil_r.
Qed.

Lemma skipn_app_plus (pre l : buffer) (k : nat) :
  skipn (length pre + k) (pre ++ l) = skipn k l.
Proof.
  rewrite skipn_app, skipn_all2 by lia.
  replace (length pre + k - length pre) with k by lia. reflexivity.
Qed.

Lemma pattern_search_intro (old b : buffer) (k n : nat) :
  match_here old (skipn k b) = Some n ->
  (forall j, j < k -> match_here old (skipn j b) = None) ->
  pattern_search old b = Some (k, k + n).
Proof.
  intros Hk Hnone. unfold pattern_search.
  rewrite (search_from_intro old b 0 k n Hk Hnone). reflexivity.
Qed.

Lemma pattern_search_inv (old b : buffer) (s e : nat) :
  pattern_search old b = Some (s, e) ->
  exists pre ws rest,
    b = pre ++ (qualifier ++ old) ++ ws ++ lparen :: rest
    /\ spaces ws
    /\ s = length pre
    /\ e = length pre + length (qualifier ++ old) + length ws + 1
    /\ skipn e b = rest
    /\ (forall j, j < length pre -> match_here old (skipn j b) = None).
Proof.
  unfold pattern_search. intros H.
  destruct (search_from_some _ _ _ _ _ H) as (k & n & Hs & He & Hk & Hnone).
  subst s e. clear H.
  destruct (match_here_inv _ _ _ Hk) as (ws & rest & Hl & Hws & Hn).
  subst n.
  assert (Hlen : length (firstn k b) = k)
    by (apply skipn_nonempty_length; rewrite Hl; intros E;
        apply (f_equal (@length char)) in E; rewrite !length_app in E;
        simpl in E; lia).
  assert (Hb : b = firstn k b ++ (qualifier ++ old) ++ ws ++ lparen :: rest)
    by (rewrite <- Hl; symmetry; apply firstn_skipn).
  exists (firstn k b), ws, rest.
  split; [exact Hb|]. split; [exact Hws|].
  rewrite Hlen. split; [reflexivity|]. split; [simpl; lia|].
  split; [|exact Hnone].
  simpl (0 + k).
  replace (k + (length (qualifier ++ old) + length ws + 1))
    with (length ((qualifier ++ old) ++ ws ++ [lparen]) + k)
    by (rewrite !length_app; simpl; lia).
  rewrite <- skipn_skipn, Hl.
  replace ((qualifier ++ old) ++ ws ++ lparen :: rest)
    with (((qualifier ++ old) ++ ws ++ [lparen]) ++ rest)
    by (rewrite <- !app_assoc; reflexivity).
  apply skipn_app_exact.
Qed.

(** What an iteration does, by what the search and the scan return. *)
Lemma iterate_nomatch (filepath : buffer) (r : rule) (b : buffer) :
  iterate filepath r b = NoMatch
  <-> pattern_search (old_variant r) b = None.
Proof.
  unfold iterate.
  destruct (pattern_search (old_variant r) b) as [[s e]|];
    [|split; reflexivity].
  destruct (find_matching_close b e) as [idx c].
  destruct (c =? 0)%Z; split; discriminate.
Qed.

Lemma iterate_spliced_inv (filepath : buffer) (r : rule) (b b' : buffer) :
  iterate filepath r b = Spliced b' ->
  exists pre ws arg suf,
    b = occurrence (old_variant r) pre ws arg suf
    /\ spaces ws
    /\ nested arg
    /\ (forall j, j < length pre ->
          match_here (old_variant r) (skipn j b) = None)
    /\ b' = pre ++ replacement r arg ++ suf.
Proof.
  unfold iterate. intros H.
  destruct (pattern_search (old_variant r) b) as [[s e]|] eqn:Hs;
    [|discriminate].
  apply pattern_search_inv in Hs
    as (pre & ws & rest & Hb & Hws & -> & He & Hrest & Hnone).
  rewrite find_matching_close_list, Hrest in H.
  destruct (scan_list rest e 1) as [idx c] eqn:Hscan.
  destruct (Z.eqb_spec c 0) as [->|]; [|discriminate].
  injection H as <-.
  apply scan_list_closed_inv in Hscan as (arg & suf & -> & Hn & ->).
  exists pre, ws, arg, suf.
  split; [exact Hb|]. split; [exact Hws|]. split; [exact Hn|].
  split; [exact Hnone|].
  assert (Hpre : firstn (length pre) b = pre)
    by (rewrite Hb; apply firstn_app_exact).
  assert (Harg : slice b e (e + length arg + 1 - 1) = arg).
  { unfold slice. rewrite Hrest.
    replace (e + length arg + 1 - 1 - e) with (length arg) by lia.
    apply firstn_app_exact. }
  assert (Hsuf : skipn (e + length arg + 1) b = suf).
  { replace (e + length arg + 1) with (length (arg ++ [rparen]) + e)
      by (rewrite length_app; simpl; lia).
    rewrite <- skipn_skipn, Hrest.
    replace (arg ++ rparen :: suf) with ((arg ++ [rparen]) ++ suf)
      by (rewrite <- app_assoc; reflexivity).
    apply skipn_app_exact. }
  rewrite Hpre, Harg, Hsuf. reflexivity.
Qed.

End Iteration.

(** ** The loop of one rule ends *)

Section Termination.

Local Open Scope nat_scope.

Lemma count_open_app (l1 l2 : buffer) :
  count_open (l1 ++ l2) = count_open l1 + count_open l2.
Proof. unfold count_open. rewrite filter_app, length_app. reflexivity. Qed.

Lemma count_open_cons (x : char) (l : buffer) :
  count_open (x :: l) = (if (lparen =? x)%N then 1 else 0) + count_open l.
Proof.
  unfold count_open. cbn [filter]. destruct (lparen =? x)%N; reflexivity.
Qed.

Lemma paren_free_inv (l : buffer) :
  paren_free l = true ->
  Forall (fun c => c <> lparen /\ c <> rparen) l.
Proof.
  unfold paren_free. rewrite forallb_forall. intros H.
  apply Forall_forall. intros c Hc. specialize (H c Hc).
  apply andb_true_iff in H as [H1 H2].
  apply negb_true_iff in H1, H2.
  split; apply N.eqb_neq; assumption.
Qed.

Lemma paren_free_count (l : buffer) :
  paren_free l = true -> count_open l = 0.
Proof.
  intros H. apply paren_free_inv in H.
  induction H as [|x l [Hx _] _ IH]; [reflexivity|].
  rewrite count_open_cons, IH.
  destruct (N.eqb_spec lparen x); [congruence|reflexivity].
Qed.

Lemma iterate_spliced_fires (filepath : buffer) (r : rule) (b : buffer) :
  (exists b', iterate filepath r b = Spliced b')
  <-> fires (old_variant r) b = true.
Proof.
  unfold iterate, fires.
  destruct (pattern_search (old_variant r) b) as [[s e]|].
  - destruct (find_matching_close b e) as [idx c]. simpl.
    destruct (c =? 0)%Z; split; intros H;
      try reflexivity; try discriminate; try (destruct H; discriminate).
    eexists; reflexivity.
  - split; [intros [b' H]|]; discriminate.
Qed.

Lemma iterate_unbalanced_inv (filepath : buffer) (r : rule)
    (b line : buffer) :
  iterate filepath r b = Unbalanced line ->
  line = error_line filepath
  /\ fires (old_variant r) b = false
  /\ exists s e,
       pattern_search (old_variant r) b = Some (s, e)
       /\ snd (find_matching_close b e) <> 0%Z.
Proof.
  unfold iterate, fires.
  destruct (pattern_search (old_variant r) b) as [[s e]|]; [|discriminate].
  destruct (find_matching_close b e) as [idx c] eqn:Hfm. simpl.
  destruct (Z.eqb_spec c 0); [discriminate|].
  intros H. injection H as <-. split; [reflexivity|].
  split; [reflexivity|]. exists s, e. split; [reflexivity|].
  rewrite Hfm. assumption.
Qed.

(** A splice of a tidy rule takes one opening parenthesis away. *)
Lemma splice_count_open (filepath : buffer) (r : rule) (b b' : buffer) :
  tidy r = true ->
  iterate filepath r b = Spliced b' ->
  count_open b' < count_open b.
Proof.
  intros Ht H.
  apply iterate_spliced_inv in H
    as (pre & ws & arg & suf & -> & _ & _ & _ & ->).
  unfold tidy in Ht. apply andb_true_iff in Ht as [Ht Hf].
  apply andb_true_iff in Ht as [_ Hn].
  unfold occurrence, replacement.
  repeat rewrite ?count_open_app, ?count_open_cons.
  rewrite (paren_free_count _ Hn), (paren_free_count _ Hf).
  change (count_open (text "AppError::")) with 0.
  change (count_open (text " { ")) with 0.
  change (count_open (text ": ")) with 0.
  change (count_open (text " }")) with 0.
  rewrite N.eqb_refl. lia.
Qed.

Lemma rule_loop_more_fuel (filepath : buffer) (r : rule) (n : nat) :
  forall m b res,
    n <= m ->
    rule_loop n filepath r b = Some res ->
    rule_loop m filepath r b = Some res.
Proof.
  induction n as [|n IH]; intros m b res Hle H; [discriminate|].
  destruct m as [|m]; [lia|]. simpl in *.
  destruct (iterate filepath r b) as [|b'|line]; try assumption.
  apply IH; [lia|assumption].
Qed.

Lemma rule_loop_enough_fuel (filepath : buffer) (r : rule) (n : nat) :
  tidy r = true ->
  forall b,
    count_open b < n ->
    exists res, rule_loop n filepath r b = Some res.
Proof.
  intros Ht. induction n as [|n IH]; intros b Hlt; [lia|]. simpl.
  destruct (iterate filepath r b) as [|b'|line] eqn:Hit.
  - eexists; reflexivity.
  - apply IH. pose proof (splice_count_open _ _ _ _ Ht Hit). lia.
  - eexists; reflexivity.
Qed.

(** Where the loop stops, the rule would not splice again, and it has
    printed at most the one error line. *)
Lemma rule_loop_result (filepath : buffer) (r : rule) (n : nat) :
  forall b b' out,
    rule_loop n filepath r b = Some (b', out) ->
    fires (old_variant r) b' = false
    /\ (out = [] \/ out = [error_line filepath]).
Proof.
  induction n as [|n IH]; intros b b' out H; [discriminate|]. simpl in H.
  destruct (iterate filepath r b) as [|b1|line] eqn:Hit.
  - injection H as <- <-. split; [|left; reflexivity].
    apply iterate_nomatch in Hit. unfold fires. rewrite Hit. reflexivity.
  - exact (IH _ _ _ H).
  - injection H as <- <-.
    apply iterate_unbalanced_inv in Hit as (-> & Hf & _).
    split; [assumption|right; reflexivity].
Qed.

(** A buffer on which the rule does not splice is left as it is. *)
Lemma rule_loop_idle (filepath : buffer) (r : rule) (n : nat) (b : buffer) :
  fires (old_variant r) b = false ->
  exists out, rule_loop (S n) filepath r b = Some (b, out).
Proof.
  intros Hf. simpl.
  destruct (iterate filepath r b) as [|b1|line] eqn:Hit.
  - eexists; reflexivity.
  - assert (fires (old_variant r) b = true)
      by (apply (iterate_spliced_fires filepath); eexists; exact Hit).
    congruence.
  - eexists; reflexivity.
Qed.

End Termination.

(** ** The characters of a match *)

Section Windows.

Local Open Scope nat_scope.

Lemma nth_error_mid (A : buffer) (x : char) (B : buffer) :
  nth_error (A ++ x :: B) (length A) = Some x.
Proof. rewrite nth_error_app2, Nat.sub_diag by lia. reflexivity. Qed.

Lemma ident_not_space (c : char) : ident_char c = true -> is_space c = false.
Proof.
  intros H. destruct (is_space c) eqn:Hs; [|reflexivity]. exfalso.
  unfold ident_char, is_space in *.
  repeat rewrite ?orb_true_iff, ?andb_true_iff, ?N.leb_le, ?N.eqb_eq in *.
  lia.
Qed.

Lemma word_or_space_plain (c : char) :
  word_or_space c = true ->
  c <> lparen /\ c <> rparen /\ c <> 123%N /\ c <> 125%N /\ c <> 58%N.
Proof.
  intros H. repeat split; intros ->; vm_compute in H; discriminate.
Qed.

Lemma identifier_inv (K : buffer) :
  identifier K = true ->
  exists k0 K', K = k0 :: K' /\ ident_char k0 = true
                /\ Forall (fun c => ident_char c = true) K.
Proof.
  destruct K as [|k0 K']; [discriminate|]. unfold identifier.
  intros H. exists k0, K'. split; [reflexivity|].
  rewrite forallb_forall in H. split.
  - apply H. left. reflexivity.
  - apply Forall_forall. exact H.
Qed.

Lemma qualifier_chars (o : nat) (c : char) :
  nth_error qualifier o = Some c ->
  is_space c = false /\ c <> lparen /\ c <> rparen /\ c <> 123%N
  /\ c <> 125%N.
Proof.
  intros H. apply nth_error_In in H.
  assert (Hall : Forall (fun c => is_space c = false /\ c <> lparen
                                  /\ c <> rparen /\ c <> 123%N /\ c <> 125%N)
                   qualifier)
    by (repeat constructor; discriminate).
  rewrite Forall_forall in Hall. exact (Hall c H).
Qed.

(** A match of an identifier is a window. *)
Lemma match_here_window (K b : buffer) (s n : nat) :
  identifier K = true ->
  match_here K (skipn s b) = Some n ->
  window b s n.
Proof.
  intros HK Hm.
  destruct (match_here_inv _ _ _ Hm) as (ws & rest & Hl & Hws & Hn).
  destruct (identifier_inv K HK) as (k0 & K' & HK0 & Hk0 & HKall).
  assert (Hq : length qualifier = 10) by reflexivity.
  rewrite length_app, Hq in Hn.
  assert (HlenK : 1 <= length K) by (rewrite HK0; simpl; lia).
  assert (Hnth : forall o, nth_error b (s + o)
                           = nth_error ((qualifier ++ K) ++ ws
                                          ++ lparen :: rest) o)
    by (intros o; rewrite <- Hl; symmetry; apply nth_error_skipn).
  unfold window. split; [lia|]. split; [|split; [|split]].
  - intros o Ho. rewrite Hnth, <- app_assoc.
    apply nth_error_app1. lia.
  - exists k0. split; [|assumption].
    rewrite Hnth, HK0, <- app_assoc, <- Hq.
    exact (nth_error_mid qualifier k0 (K' ++ ws ++ lparen :: rest)).
  - intros i Hi. replace i with (s + (i - s)) by lia. rewrite Hnth.
    replace ((qualifier ++ K) ++ ws ++ lparen :: rest)
      with (qualifier ++ (K ++ ws) ++ lparen :: rest)
      by (rewrite <- !app_assoc; reflexivity).
    rewrite nth_error_app2 by lia.
    assert (Hlt : i - s - length qualifier < length (K ++ ws))
      by (rewrite length_app; lia).
    rewrite nth_error_app1 by exact Hlt.
    destruct (nth_error (K ++ ws) (i - s - length qualifier)) as [c|] eqn:Hc;
      [|apply nth_error_None in Hc; lia].
    exists c. split; [reflexivity|].
    apply nth_error_In in Hc. apply in_app_or in Hc as [Hc|Hc].
    + rewrite Forall_forall in HKall. unfold word_or_space.
      rewrite (HKall c Hc). reflexivity.
    + unfold spaces in Hws. rewrite Forall_forall in Hws.
      unfold word_or_space. rewrite (Hws c Hc). apply orb_true_r.
  - replace (s + n - 1) with (s + (n - 1)) by lia. rewrite Hnth.
    replace ((qualifier ++ K) ++ ws ++ lparen :: rest)
      with (((qualifier ++ K) ++ ws) ++ lparen :: rest)
      by (rewrite <- !app_assoc; reflexivity).
    replace (n - 1) with (length ((qualifier ++ K) ++ ws))
      by (rewrite !length_app, Hq; lia).
    apply nth_error_mid.
Qed.

Section WindowFacts.

Variables (b : buffer) (s n : nat).
Hypothesis W : window b s n.

Lemma window_first : nth_error b s = Some 65%N.
Proof.
  destruct W as (_ & Hq & _). specialize (Hq 0 ltac:(lia)).
  rewrite Nat.add_0_r in Hq. exact Hq.
Qed.

Lemma window_last : nth_error b (s + n - 1) = Some lparen.
Proof. destruct W as (_ & _ & _ & _ & H). exact H. Qed.

Lemma window_colon : nth_error b (s + 9) = Some 58%N.
Proof. destruct W as (_ & Hq & _). exact (Hq 9 ltac:(lia)). Qed.

Lemma window_long : 12 <= n.
Proof. destruct W as (H & _). exact H. Qed.

(** No parenthesis and no brace before the last position. *)
Lemma window_interior (i : nat) :
  s <= i < s + n - 1 ->
  exists c, nth_error b i = Some c
            /\ c <> lparen /\ c <> rparen /\ c <> 123%N /\ c <> 125%N.
Proof.
  intros Hi. destruct W as (_ & Hq & _ & Hw & _).
  destruct (Nat.lt_ge_cases i (s + 10)) as [Hlt|Hge].
  - specialize (Hq (i - s) ltac:(lia)).
    replace (s + (i - s)) with i in Hq by lia.
    destruct (nth_error qualifier (i - s)) as [c|] eqn:Hc.
    + exists c. split; [assumption|].
      destruct (qualifier_chars _ _ Hc) as (_ & H1 & H2 & H3 & H4).
      repeat split; assumption.
    + apply nth_error_None in Hc.
      assert (length qualifier = 10) by reflexivity. lia.
  - destruct (Hw i ltac:(lia)) as (c & Hc & Hcw). exists c.
    split; [assumption|].
    destruct (word_or_space_plain c Hcw) as (H1 & H2 & H3 & H4 & _).
    repeat split; assumption.
Qed.

(** From the eleventh position on, no colon. *)
Lemma window_no_colon (i : nat) :
  s + 10 <= i < s + n - 1 -> nth_error b i <> Some 58%N.
Proof.
  intros Hi. destruct W as (_ & _ & _ & Hw & _).
  destruct (Hw i Hi) as (c & Hc & Hcw). rewrite Hc. intros E.
  injection E as ->. vm_compute in Hcw. discriminate.
Qed.

(** Whitespace inside a window follows an identifier character or
    whitespace. *)
Lemma window_before_space (i : nat) (c : char) :
  s <= i < s + n - 1 ->
  nth_error b i = Some c -> is_space c = true ->
  s + 11 <= i
  /\ exists c', nth_error b (i - 1) = Some c' /\ word_or_space c' = true.
Proof.
  intros Hi Hc Hsp. destruct W as (_ & Hq & (k0 & Hk0 & Hid) & Hw & _).
  assert (Hge : s + 11 <= i).
  { destruct (Nat.lt_ge_cases i (s + 10)) as [Hlt|Hge].
    - specialize (Hq (i - s) ltac:(lia)).
      replace (s + (i - s)) with i in Hq by lia.
      rewrite Hc in Hq. symmetry in Hq.
      destruct (qualifier_chars _ _ Hq) as (Hns & _). congruence.
    - destruct (Nat.eq_dec i (s + 10)) as [->|]; [|lia].
      rewrite Hk0 in Hc. injection Hc as ->.
      rewrite (ident_not_space _ Hid) in Hsp. discriminate. }
  split; [assumption|]. apply Hw. lia.
Qed.

End WindowFacts.

End Windows.

(** ** Matches do not overlap *)

Section Overlap.

Local Open Scope nat_scope.

Lemma window_overlap (b : buffer) (s1 n1 s2 n2 : nat) :
  window b s1 n1 -> window b s2 n2 ->
  s1 <= s2 -> s2 <= s1 + n1 - 1 ->
  s1 = s2 /\ n1 = n2.
Proof.
  intros W1 W2 Hle Hin.
  pose proof (window_long _ _ _ W1) as L1.
  pose proof (window_long _ _ _ W2) as L2.
  pose proof (window_last _ _ _ W1) as E1.
  pose proof (window_last _ _ _ W2) as E2.
  assert (Hend : s1 + n1 = s2 + n2).
  { destruct (Nat.lt_trichotomy (s1 + n1) (s2 + n2)) as [Hlt|[Heq|Hgt]];
      [|assumption|].
    - destruct (window_interior _ _ _ W2 (s1 + n1 - 1) ltac:(lia))
        as (c & Hc & Hne & _).
      congruence.
    - destruct (window_interior _ _ _ W1 (s2 + n2 - 1) ltac:(lia))
        as (c & Hc & Hne & _).
      congruence. }
  destruct (Nat.eq_dec s1 s2) as [Heq|Hne]; [split; lia|]. exfalso.
  apply (window_no_colon _ _ _ W1 (s2 + 9) ltac:(lia)).
  exact (window_colon _ _ _ W2).
Qed.

Lemma ident_run_unique (K : buffer) :
  forall J tK tJ,
    Forall (fun c => ident_char c = true) K ->
    Forall (fun c => ident_char c = true) J ->
    stops tK -> stops tJ ->
    K ++ tK = J ++ tJ -> K = J.
Proof.
  induction K as [|k K IH]; intros J tK tJ HK HJ HtK HtJ E.
  - destruct J as [|j J]; [reflexivity|]. simpl in E. subst tK.
    inversion HJ; subst. simpl in HtK. congruence.
  - destruct J as [|j J].
    + simpl in E. subst tJ. inversion HK; subst. simpl in HtJ. congruence.
    + simpl in E. injection E as -> E. f_equal.
      inversion HK; subst. inversion HJ; subst.
      exact (IH J tK tJ ltac:(assumption) ltac:(assumption) HtK HtJ E).
Qed.

Lemma spaces_paren_stops (ws rest : buffer) :
  spaces ws -> stops (ws ++ lparen :: rest).
Proof.
  intros Hws. destruct Hws as [|c ws Hc _]; simpl; [reflexivity|].
  destruct (ident_char c) eqn:Hi; [|reflexivity].
  rewrite (ident_not_space _ Hi) in Hc. discriminate.
Qed.

(** Two identifiers matched at the same place are the same. *)
Lemma match_here_same (K J l : buffer) (n m : nat) :
  identifier K = true -> identifier J = true ->
  match_here K l = Some n -> match_here J l = Some m -> K = J.
Proof.
  intros HK HJ Hn Hm.
  destruct (match_here_inv _ _ _ Hn) as (ws & rest & Hl & Hws & _).
  destruct (match_here_inv _ _ _ Hm) as (ws' & rest' & Hl' & Hws' & _).
  destruct (identifier_inv K HK) as (_ & _ & _ & _ & HKall).
  destruct (identifier_inv J HJ) as (_ & _ & _ & _ & HJall).
  rewrite Hl in Hl'. rewrite <- !app_assoc in Hl'.
  apply app_inv_head in Hl'.
  exact (ident_run_unique K J _ _ HKall HJall
           (spaces_paren_stops ws rest Hws)
           (spaces_paren_stops ws' rest' Hws') Hl').
Qed.

(** A match only depends on the characters it covers. *)
Lemma match_here_prefix (K a t t' : buffer) (n : nat) :
  match_here K (a ++ t) = Some n -> n <= length a ->
  match_here K (a ++ t') = Some n.
Proof.
  intros Hm Hle.
  destruct (match_here_inv _ _ _ Hm) as (ws & rest & Hl & Hws & Hn).
  set (w := (qualifier ++ K) ++ ws ++ [lparen]).
  assert (Hw : length w = n)
    by (unfold w; rewrite Hn, !length_app; simpl; lia).
  assert (Hl2 : a ++ t = w ++ rest)
    by (rewrite Hl; unfold w; rewrite <- !app_assoc; reflexivity).
  assert (Ha : a = w ++ skipn n a).
  { rewrite <- (firstn_skipn n a) at 1. f_equal.
    apply (f_equal (firstn n)) in Hl2.
    rewrite firstn_app in Hl2.
    replace (n - length a) with 0 in Hl2 by lia.
    rewrite firstn_O, app_nil_r in Hl2. rewrite Hl2, <- Hw.
    apply firstn_app_exact. }
  rewrite Ha.
  replace ((w ++ skipn n a) ++ t')
    with ((qualifier ++ K) ++ ws ++ lparen :: (skipn n a ++ t'))
    by (unfold w; rewrite <- !app_assoc; reflexivity).
  rewrite (match_here_intro K ws _ Hws). f_equal. lia.
Qed.

Lemma skipn_app_le (A C : buffer) (s : nat) :
  s <= length A -> skipn s (A ++ C) = skipn s A ++ C.
Proof.
  intros H. rewrite skipn_app.
  replace (s - length A) with 0 by lia. reflexivity.
Qed.

Lemma skipn_app_ge (A C : buffer) (s : nat) :
  length A <= s -> skipn s (A ++ C) = skipn (s - length A) C.
Proof.
  intros H. rewrite skipn_app, skipn_all2 by lia. reflexivity.
Qed.

(** The same text [M] in two buffers: a match inside [M] in one is a
    match at the corresponding place of the other. *)
Lemma match_transfer (K A A' M C C' : buffer) (s n : nat) :
  length A <= s -> s + n <= length A + length M ->
  match_here K (skipn s (A ++ M ++ C)) = Some n ->
  match_here K (skipn (s - length A + length A') (A' ++ M ++ C')) = Some n.
Proof.
  intros H1 H2 Hm.
  rewrite skipn_app_ge, skipn_app_le in Hm by lia.
  rewrite skipn_app_ge by lia.
  replace (s - length A + length A' - length A') with (s - length A) by lia.
  rewrite skipn_app_le by lia.
  apply (match_here_prefix K _ C C' n Hm).
  rewrite length_skipn. lia.
Qed.

End Overlap.

(** ** The count a scan ends with *)

Section Final.

Local Open Scope nat_scope.

Lemma final_scan (l : buffer) (i : nat) (c : Z) :
  snd (scan_list l i c) = final l c.
Proof. unfold final. rewrite scan_list_shift. reflexivity. Qed.

Lemma find_matching_close_final (b : buffer) (e : nat) :
  snd (find_matching_close b e) = final (skipn e b) 1.
Proof. rewrite find_matching_close_list. apply final_scan. Qed.

Lemma final_app (l1 l2 : buffer) (c : Z) :
  final (l1 ++ l2) c
  = if (0 <? final l1 c)%Z then final l2 (final l1 c) else final l1 c.
Proof.
  unfold final at 1. rewrite scan_list_app. fold (final l1 c).
  destruct (0 <? final l1 c)%Z; [apply final_scan|reflexivity].
Qed.

Lemma final_stuck (l : buffer) (c : Z) : (c <= 0)%Z -> final l c = c.
Proof. intros H. unfold final. rewrite scan_list_stuck by lia. reflexivity. Qed.

Lemma final_cons (x : char) (l : buffer) (c : Z) :
  (0 < c)%Z -> final (x :: l) c = final l (bump x c).
Proof.
  intros H. unfold final at 1. simpl.
  destruct (Z.ltb_spec 0 c); [apply final_scan|lia].
Qed.

Lemma final_nil (c : Z) : final [] c = c.
Proof. reflexivity. Qed.

Lemma final_plain (l : buffer) (c : Z) : plain l -> final l c = c.
Proof.
  intros H. destruct (Z.ltb_spec 0 c) as [Hc|Hc]; [|apply final_stuck; lia].
  induction H as [|x l [H1 H2] _ IH]; [reflexivity|].
  rewrite final_cons by lia.
  destruct (bump_cases x c) as [[E _]|[[E _]|(_ & _ & E)]];
    [contradiction|contradiction|].
  rewrite E. exact IH.
Qed.

Lemma final_nested (arg : buffer) (c : Z) :
  nested arg -> (0 < c)%Z -> final arg c = c.
Proof.
  intros Hn Hc. unfold final. rewrite (nested_scan arg 0 c Hn Hc).
  reflexivity.
Qed.

(** From a lower count the scan closes no later. *)
Lemma final_mono (l : buffer) :
  forall c c',
    (0 < c')%Z -> (c' <= c)%Z -> final l c = 0%Z -> final l c' = 0%Z.
Proof.
  induction l as [|x l IH]; intros c c' Hc' Hle H.
  - rewrite final_nil in H. lia.
  - rewrite final_cons in * by lia.
    assert (Hb : (bump x c' <= bump x c)%Z /\ (0 <= bump x c')%Z).
    { destruct (bump_cases x c) as [[-> E]|[[-> E]|(_ & _ & E)]].
      - rewrite bump_lparen. lia.
      - rewrite bump_rparen. lia.
      - replace c' with (c + (c' - c))%Z by lia.
        rewrite bump_add. lia. }
    destruct (Z.ltb_spec 0 (bump x c')) as [Hpos|Hneg].
    + exact (IH _ _ Hpos (proj1 Hb) H).
    + rewrite final_stuck by lia. lia.
Qed.

Lemma plain_app (l1 l2 : buffer) : plain l1 -> plain l2 -> plain (l1 ++ l2).
Proof. intros H1 H2. apply Forall_app. split; assumption. Qed.

Lemma plain_spaces (ws : buffer) : spaces ws -> plain ws.
Proof.
  intros H. eapply Forall_impl; [|exact H]. intros c Hc.
  split; intros ->; discriminate.
Qed.

Lemma plain_identifier (K : buffer) : identifier K = true -> plain K.
Proof.
  intros H. destruct (identifier_inv K H) as (_ & _ & _ & _ & Hall).
  eapply Forall_impl; [|exact Hall]. intros c Hc.
  split; intros ->; discriminate.
Qed.

Lemma plain_qualifier : plain qualifier.
Proof. repeat constructor; discriminate. Qed.

Lemma plain_tail : plain tail_text.
Proof. repeat constructor; discriminate. Qed.

Lemma tidy_inv (r : rule) :
  tidy r = true ->
  identifier (old_variant r) = true
  /\ plain (new_variant r) /\ plain (field_name r).
Proof.
  unfold tidy. intros H. apply andb_true_iff in H as [H Hf].
  apply andb_true_iff in H as [Ho Hn].
  split; [assumption|]. split; apply paren_free_inv; assumption.
Qed.

Lemma plain_head (r : rule) : tidy r = true -> plain (head_text r).
Proof.
  intros H. destruct (tidy_inv r H) as (_ & Hn & Hf). unfold head_text.
  repeat apply plain_app; try assumption; try apply plain_qualifier;
    repeat constructor; discriminate.
Qed.

End Final.

(** ** Where a match can lie, before and after a splice *)

Section Splice.

Local Open Scope nat_scope.

Variables (r : rule) (pre ws arg suf : buffer).
Hypothesis Hr : tidy r = true.
Hypothesis Hws : spaces ws.

Ltac regroup :=
  unfold spliced, occurrence, head_text, tail_text;
  rewrite <- ?app_assoc; reflexivity.

Ltac char_at A x B :=
  match goal with
  | |- nth_error ?l ?i = Some _ =>
      replace l with (A ++ x :: B) by regroup;
      replace i with (length A) by (rewrite ?length_app; simpl; lia);
      apply nth_error_mid
  end.

Lemma head_length :
  length (head_text r)
  = 10 + length (new_variant r) + 3 + length (field_name r) + 2.
Proof. unfold head_text. rewrite !length_app. simpl. lia. Qed.

Lemma spliced_head (i : nat) :
  length pre <= i < length pre + length (head_text r) ->
  exists c, nth_error (spliced r pre arg suf) i = Some c /\ c <> lparen.
Proof.
  intros Hi. unfold spliced.
  rewrite nth_error_app2, nth_error_app1 by lia.
  destruct (nth_error (head_text r) (i - length pre)) as [c|] eqn:Hc;
    [|apply nth_error_None in Hc; lia].
  exists c. split; [reflexivity|].
  apply nth_error_In in Hc.
  pose proof (plain_head r Hr) as Hp. unfold plain in Hp.
  rewrite Forall_forall in Hp. exact (proj1 (Hp c Hc)).
Qed.

Lemma spliced_brace :
  nth_error (spliced r pre arg suf)
            (length pre + 10 + length (new_variant r) + 1)
  = Some 123%N.
Proof.
  char_at (pre ++ qualifier ++ new_variant r ++ [32%N]) 123%N
          (32%N :: field_name r ++ text ": " ++ arg ++ tail_text ++ suf).
Qed.

Lemma spliced_colon :
  nth_error (spliced r pre arg suf)
            (length pre + length (head_text r) - 2)
  = Some 58%N.
Proof.
  rewrite head_length.
  char_at (pre ++ qualifier ++ new_variant r ++ text " { " ++ field_name r)
          58%N (32%N :: arg ++ tail_text ++ suf).
Qed.

Lemma spliced_blank :
  nth_error (spliced r pre arg suf)
            (length pre + length (head_text r) - 1)
  = Some 32%N.
Proof.
  rewrite head_length.
  char_at (pre ++ qualifier ++ new_variant r ++ text " { " ++ field_name r
             ++ [58%N])
          32%N (arg ++ tail_text ++ suf).
Qed.

Lemma spliced_tail_blank :
  nth_error (spliced r pre arg suf)
            (length pre + length (head_text r) + length arg)
  = Some 32%N.
Proof.
  rewrite head_length.
  char_at (pre ++ qualifier ++ new_variant r ++ text " { " ++ field_name r
             ++ text ": " ++ arg)
          32%N (125%N :: suf).
Qed.

Lemma spliced_tail_brace :
  nth_error (spliced r pre arg suf)
            (length pre + length (head_text r) + length arg + 1)
  = Some 125%N.
Proof.
  rewrite head_length.
  char_at (pre ++ qualifier ++ new_variant r ++ text " { " ++ field_name r
             ++ text ": " ++ arg ++ [32%N])
          125%N suf.
Qed.

(** After the splice a match lies in the text before the replacement, in
    the argument or in the text after it. *)
Lemma window_after_splice (s n : nat) :
  window (spliced r pre arg suf) s n ->
  s + n <= length pre
  \/ (length pre + length (head_text r) <= s
      /\ s + n <= length pre + length (head_text r) + length arg)
  \/ length pre + length (head_text r) + length arg + 2 <= s.
Proof.
  intros W.
  pose proof (window_long _ _ _ W) as L.
  pose proof (window_last _ _ _ W) as E.
  pose proof (window_first _ _ _ W) as A.
  pose proof head_length as HL.
  (* the last character is not in the head *)
  assert (E1 : ~ (length pre <= s + n - 1
                  < length pre + length (head_text r))).
  { intros Hi. destruct (spliced_head _ Hi) as (c & Hc & Hne). congruence. }
  (* the opening brace is not covered *)
  assert (E2 : ~ (s <= length pre + 10 + length (new_variant r) + 1
                  < s + n - 1)).
  { intros Hi.
    destruct (window_interior _ _ _ W _ Hi) as (c & Hc & _ & _ & Hne & _).
    rewrite spliced_brace in Hc. congruence. }
  (* no start after the brace inside the head *)
  assert (E3 : ~ (length pre + 10 + length (new_variant r) + 1 < s
                  /\ s < length pre + length (head_text r)
                  /\ length pre + length (head_text r) <= s + n - 1)).
  { intros (Hs1 & Hs2 & He).
    destruct (Nat.eq_dec s (length pre + length (head_text r) - 1))
      as [Heq|Hne].
    - rewrite Heq in A. rewrite spliced_blank in A. discriminate.
    - destruct (window_before_space _ _ _ W
                  (length pre + length (head_text r) - 1) 32%N
                  ltac:(lia) spliced_blank eq_refl) as (_ & c & Hc & Hcw).
      replace (length pre + length (head_text r) - 1 - 1)
        with (length pre + length (head_text r) - 2) in Hc by lia.
      rewrite spliced_colon in Hc. injection Hc as <-. discriminate. }
  (* the tail is not covered *)
  assert (E4 : s + n - 1
               <> length pre + length (head_text r) + length arg).
  { intros Heq. rewrite Heq in E.
    rewrite spliced_tail_blank in E. discriminate. }
  assert (E5 : s + n - 1
               <> length pre + length (head_text r) + length arg + 1).
  { intros Heq. rewrite Heq in E.
    rewrite spliced_tail_brace in E. discriminate. }
  assert (E6 : ~ (s <= length pre + length (head_text r) + length arg + 1
                  < s + n - 1)).
  { intros Hi.
    destruct (window_interior _ _ _ W _ Hi) as (c & Hc & _ & _ & _ & Hne).
    rewrite spliced_tail_brace in Hc. congruence. }
  lia.
Qed.

Lemma occurrence_window :
  window (occurrence (old_variant r) pre ws arg suf) (length pre)
         (length (qualifier ++ old_variant r) + length ws + 1).
Proof.
  destruct (tidy_inv r Hr) as (HJ & _).
  apply (match_here_window (old_variant r)); [exact HJ|].
  unfold occurrence. rewrite skipn_app_exact.
  apply match_here_intro. exact Hws.
Qed.

Lemma occurrence_close :
  nth_error (occurrence (old_variant r) pre ws arg suf)
            (length pre + (length (qualifier ++ old_variant r)
                           + length ws + 1) + length arg)
  = Some rparen.
Proof.
  char_at (pre ++ (qualifier ++ old_variant r) ++ ws ++ lparen :: arg)
          rparen suf.
Qed.

(** Before the splice a match is the one about to be replaced, or lies
    in the text before it, in the argument or in the text after the
    closing parenthesis. *)
Lemma window_before_splice (s n : nat) :
  window (occurrence (old_variant r) pre ws arg suf) s n ->
  s + n <= length pre
  \/ (s = length pre
      /\ n = length (qualifier ++ old_variant r) + length ws + 1)
  \/ (length pre + (length (qualifier ++ old_variant r) + length ws + 1)
        <= s
      /\ s + n <= length pre + (length (qualifier ++ old_variant r)
                                + length ws + 1) + length arg)
  \/ length pre + (length (qualifier ++ old_variant r) + length ws + 1)
       + length arg + 1 <= s.
Proof.
  intros W.
  pose proof (window_long _ _ _ W) as L.
  pose proof (window_last _ _ _ W) as E.
  pose proof occurrence_window as WJ.
  pose proof (window_long _ _ _ WJ) as LJ.
  pose proof occurrence_close as C.
  assert (E1 : s <= length pre -> length pre <= s + n - 1 ->
               s = length pre
               /\ n = length (qualifier ++ old_variant r) + length ws + 1).
  { intros H1 H2.
    destruct (window_overlap _ _ _ _ _ W WJ H1 H2) as [-> ->].
    split; reflexivity. }
  assert (E2 : length pre <= s ->
               s <= length pre + (length (qualifier ++ old_variant r)
                                  + length ws + 1) - 1 ->
               s = length pre
               /\ n = length (qualifier ++ old_variant r) + length ws + 1).
  { intros H1 H2.
    destruct (window_overlap _ _ _ _ _ WJ W H1 H2) as [<- <-].
    split; reflexivity. }
  assert (E3 : s + n - 1
               <> length pre + (length (qualifier ++ old_variant r)
                                + length ws + 1) + length arg).
  { intros Heq. rewrite Heq, C in E. vm_compute in E. discriminate. }
  assert (E4 : ~ (s <= length pre + (length (qualifier ++ old_variant r)
                                     + length ws + 1) + length arg
                  < s + n - 1)).
  { intros Hi.
    destruct (window_interior _ _ _ W _ Hi) as (c & Hc & _ & Hne & _).
    rewrite C in Hc. congruence. }
  lia.
Qed.

End Splice.

(** ** A splice neither makes nor unmakes a match of another rule *)

Section Preserve.

Local Open Scope nat_scope.

Lemma fires_inv (K b : buffer) :
  fires K b = true ->
  exists s n,
    match_here K (skipn s b) = Some n
    /\ (forall j, j < s -> match_here K (skipn j b) = None)
    /\ closes (skipn (s + n) b).
Proof.
  unfold fires, pattern_search. intros H.
  destruct (search_from K b 0) as [[s e]|] eqn:Hs; [|discriminate].
  destruct (search_from_some _ _ _ _ _ Hs) as (k & n & -> & -> & Hk & Hnone).
  exists k, n. split; [assumption|]. split; [assumption|].
  apply Z.eqb_eq in H. rewrite find_matching_close_final in H. exact H.
Qed.

Lemma fires_intro (K b : buffer) (s n : nat) :
  match_here K (skipn s b) = Some n ->
  (forall j, j < s -> match_here K (skipn j b) = None) ->
  closes (skipn (s + n) b) ->
  fires K b = true.
Proof.
  intros Hm Hnone Hc. unfold fires.
  rewrite (pattern_search_intro K b s n Hm Hnone).
  rewrite find_matching_close_final. apply Z.eqb_eq. exact Hc.
Qed.

Lemma match_transfer_eq (K A A' M C C' b b' : buffer) (s s' n : nat) :
  b = A ++ M ++ C -> b' = A' ++ M ++ C' ->
  length A <= s -> s + n <= length A + length M ->
  s' + length A = s + length A' ->
  match_here K (skipn s b) = Some n ->
  match_here K (skipn s' b') = Some n.
Proof.
  intros -> -> H1 H2 H3 Hm.
  replace s' with (s - length A + length A') by lia.
  exact (match_transfer K A A' M C C' s n H1 H2 Hm).
Qed.

Lemma final_app_pos (l1 l2 : buffer) (c : Z) :
  (0 < final l1 c)%Z -> final (l1 ++ l2) c = final l2 (final l1 c).
Proof.
  intros H. rewrite final_app.
  destruct (Z.ltb_spec 0 (final l1 c)); [reflexivity|lia].
Qed.

Lemma final_plain_app (l1 l2 : buffer) (c : Z) :
  plain l1 -> (0 < c)%Z -> final (l1 ++ l2) c = final l2 c.
Proof.
  intros H Hc. rewrite final_app_pos; rewrite (final_plain l1 c H);
    [reflexivity|assumption].
Qed.

Lemma final_nested_app (arg l2 : buffer) (c : Z) :
  nested arg -> (0 < c)%Z -> final (arg ++ l2) c = final l2 c.
Proof.
  intros H Hc. rewrite final_app_pos; rewrite (final_nested arg c H Hc);
    [reflexivity|assumption].
Qed.

Variables (K : buffer) (r : rule) (pre ws arg suf : buffer).
Hypothesis HK : identifier K = true.
Hypothesis Hr : tidy r = true.
Hypothesis Hws : spaces ws.
Hypothesis Harg : nested arg.

Ltac regroup :=
  unfold spliced, occurrence;
  rewrite <- ?app_assoc; reflexivity.

Ltac lengths :=
  do 3 (rewrite ?length_app in *; cbn [length] in *);
  change (length tail_text) with 2 in *; lia.

(** The count after the replaced text is the one after the original. *)
Lemma final_spliced_rest (c : Z) :
  (0 < c)%Z ->
  final (head_text r ++ arg ++ tail_text ++ suf) c = final suf c.
Proof.
  intros Hc.
  rewrite (final_plain_app _ _ c (plain_head r Hr) Hc).
  rewrite (final_nested_app _ _ c Harg Hc).
  exact (final_plain_app _ _ c plain_tail Hc).
Qed.

Lemma final_occurrence_rest (c : Z) :
  (0 < c)%Z ->
  final ((qualifier ++ old_variant r) ++ ws ++ lparen :: arg
           ++ rparen :: suf) c
  = final suf c.
Proof.
  intros Hc. destruct (tidy_inv r Hr) as (HJ & _).
  rewrite (final_plain_app _ _ c
             (plain_app _ _ plain_qualifier (plain_identifier _ HJ)) Hc).
  rewrite (final_plain_app _ _ c (plain_spaces ws Hws) Hc).
  rewrite final_cons, bump_lparen by lia.
  rewrite (final_nested_app _ _ (c + 1) Harg) by lia.
  rewrite final_cons, bump_rparen by lia.
  f_equal. lia.
Qed.

Lemma closes_before (a : buffer) :
  closes (a ++ head_text r ++ arg ++ tail_text ++ suf) ->
  closes (a ++ (qualifier ++ old_variant r) ++ ws ++ lparen :: arg
            ++ rparen :: suf).
Proof.
  unfold closes. rewrite !(final_app a).
  destruct (Z.ltb_spec 0 (final a 1)) as [Hc|Hc]; [|trivial].
  rewrite final_spliced_rest, final_occurrence_rest by assumption. trivial.
Qed.

Lemma closes_inside (a : buffer) :
  closes (a ++ tail_text ++ suf) -> closes (a ++ rparen :: suf).
Proof.
  unfold closes. rewrite !(final_app a).
  destruct (Z.ltb_spec 0 (final a 1)) as [Hc|Hc]; [|trivial].
  rewrite (final_plain_app _ _ _ plain_tail Hc).
  rewrite final_cons, bump_rparen by lia. intros H.
  destruct (Z.ltb_spec 0 (final a 1 - 1)) as [Hc1|Hc1].
  - apply (final_mono suf (final a 1)); [lia|lia|assumption].
  - rewrite final_stuck by lia. lia.
Qed.

Lemma skipn_mid (A M C : buffer) (k : nat) :
  length A <= k <= length A + length M ->
  skipn k (A ++ M ++ C) = skipn (k - length A) M ++ C.
Proof. intros H. rewrite skipn_app_ge, skipn_app_le by lia. reflexivity. Qed.

Lemma occurrence_length_text :
  length ((qualifier ++ old_variant r) ++ ws ++ [lparen])
  = length (qualifier ++ old_variant r) + length ws + 1.
Proof. rewrite !length_app. cbn [length]. lia. Qed.

Lemma match_here_fits (b : buffer) (s n : nat) :
  match_here K (skipn s b) = Some n -> s + n <= length b.
Proof.
  intros Hm. destruct (match_here_inv _ _ _ Hm) as (w0 & rest & Hl & _ & Hn).
  apply (f_equal (@length char)) in Hl.
  rewrite length_skipn in Hl. repeat rewrite length_app in Hl.
  rewrite length_app in Hn. cbn [length] in Hl. lia.
Qed.

(** A match in the spliced buffer was a match before the splice, and if
    its parenthesis is closed now it was closed then. *)
Lemma match_back (s' n : nat) :
  match_here K (skipn s' (spliced r pre arg suf)) = Some n ->
  closes (skipn (s' + n) (spliced r pre arg suf)) ->
  exists s,
    match_here K (skipn s (occurrence (old_variant r) pre ws arg suf))
    = Some n
    /\ closes (skipn (s + n) (occurrence (old_variant r) pre ws arg suf))
    /\ ((s = s' /\ s + n <= length pre)
        \/ (length pre + (length (qualifier ++ old_variant r)
                          + length ws + 1) <= s
            /\ s + n <= length pre + (length (qualifier ++ old_variant r)
                                      + length ws + 1) + length arg
            /\ s' + (length (qualifier ++ old_variant r) + length ws + 1)
               = s + length (head_text r))
        \/ (length pre + (length (qualifier ++ old_variant r)
                          + length ws + 1) + length arg + 1 <= s
            /\ s' + (length (qualifier ++ old_variant r) + length ws + 1)
                 + 1
               = s + length (head_text r) + 2)).
Proof.
  intros Hm Hc.
  pose proof (match_here_window K _ s' n HK Hm) as W.
  destruct (window_after_splice r pre arg suf Hr s' n W)
    as [Hpre|[[Ha1 Ha2]|Hsuf]].
  - exists s'. split; [|split; [|left; split; [reflexivity|assumption]]].
    + apply (match_transfer_eq K [] [] pre
               (head_text r ++ arg ++ tail_text ++ suf)
               ((qualifier ++ old_variant r) ++ ws ++ lparen :: arg
                  ++ rparen :: suf)
               (spliced r pre arg suf) _ s' s' n);
        try reflexivity; try assumption; simpl; lia.
    + unfold spliced in Hc. unfold occurrence.
      rewrite skipn_app_le in * by lia.
      apply closes_before. exact Hc.
  - exists (s' + (length (qualifier ++ old_variant r) + length ws + 1)
            - length (head_text r)).
    split; [|split; [|right; left; lia]].
    + apply (match_transfer_eq K (pre ++ head_text r)
               (pre ++ (qualifier ++ old_variant r) ++ ws ++ [lparen])
               arg (tail_text ++ suf) (rparen :: suf)
               (spliced r pre arg suf) _ s' _ n);
        try regroup; try assumption; lengths.
    + replace (spliced r pre arg suf)
        with ((pre ++ head_text r) ++ arg ++ tail_text ++ suf) in Hc
        by regroup.
      replace (occurrence (old_variant r) pre ws arg suf)
        with ((pre ++ (qualifier ++ old_variant r) ++ ws ++ [lparen])
                ++ arg ++ rparen :: suf)
        by regroup.
      rewrite skipn_mid in Hc by lengths.
      rewrite skipn_mid by lengths.
      match goal with
      | H : closes (skipn ?a arg ++ _) |- closes (skipn ?b arg ++ _) =>
          replace b with a by lengths
      end.
      apply closes_inside. exact Hc.
  - exists (s' + (length (qualifier ++ old_variant r) + length ws + 1) + 1
            - length (head_text r) - 2).
    pose proof (match_here_fits _ _ _ Hm) as Hn.
    unfold spliced in Hn.
    split; [|split; [|right; right; lengths]].
    + apply (match_transfer_eq K
               (pre ++ head_text r ++ arg ++ tail_text)
               (pre ++ ((qualifier ++ old_variant r) ++ ws ++ [lparen])
                  ++ arg ++ [rparen])
               suf [] []
               (spliced r pre arg suf) _ s' _ n);
        try (rewrite app_nil_r; regroup); try assumption; lengths.
    + replace (spliced r pre arg suf)
        with ((pre ++ head_text r ++ arg ++ tail_text) ++ suf) in Hc
        by regroup.
      replace (occurrence (old_variant r) pre ws arg suf)
        with ((pre ++ ((qualifier ++ old_variant r) ++ ws ++ [lparen])
                 ++ arg ++ [rparen]) ++ suf)
        by regroup.
      rewrite skipn_app_ge in Hc by lengths.
      rewrite skipn_app_ge by lengths.
      match goal with
      | H : closes (skipn ?a suf) |- closes (skipn ?b suf) =>
          replace b with a by lengths; exact H
      end.
Qed.

(** A match of another identifier before the splice is still one
    after it. *)
Lemma match_forth (j m : nat) :
  j <> length pre ->
  match_here K (skipn j (occurrence (old_variant r) pre ws arg suf))
  = Some m ->
  exists j',
    match_here K (skipn j' (spliced r pre arg suf)) = Some m
    /\ ((j' = j /\ j + m <= length pre)
        \/ (length pre + (length (qualifier ++ old_variant r)
                          + length ws + 1) <= j
            /\ j + m <= length pre + (length (qualifier ++ old_variant r)
                                      + length ws + 1) + length arg
            /\ j' + (length (qualifier ++ old_variant r) + length ws + 1)
               = j + length (head_text r))
        \/ (length pre + (length (qualifier ++ old_variant r)
                          + length ws + 1) + length arg + 1 <= j
            /\ j' + (length (qualifier ++ old_variant r) + length ws + 1)
                 + 1
               = j + length (head_text r) + 2)).
Proof.
  intros Hne Hm.
  pose proof (match_here_window K _ j m HK Hm) as W.
  pose proof (match_here_fits _ _ _ Hm) as Hfit. unfold occurrence in Hfit.
  destruct (window_before_splice r pre ws arg suf Hr Hws j m W)
    as [Hpre|[[Hj _]|[[Ha1 Ha2]|Hsuf]]].
  - exists j. split; [|left; split; [reflexivity|assumption]].
    apply (match_transfer_eq K [] [] pre
             ((qualifier ++ old_variant r) ++ ws ++ lparen :: arg
                ++ rparen :: suf)
             (head_text r ++ arg ++ tail_text ++ suf)
             (occurrence (old_variant r) pre ws arg suf) _ j j m);
      try reflexivity; try assumption; simpl; lia.
  - contradiction.
  - exists (j + length (head_text r)
            - (length (qualifier ++ old_variant r) + length ws + 1)).
    split; [|right; left; lia].
    apply (match_transfer_eq K
             (pre ++ (qualifier ++ old_variant r) ++ ws ++ [lparen])
             (pre ++ head_text r)
             arg (rparen :: suf) (tail_text ++ suf)
             (occurrence (old_variant r) pre ws arg suf) _ j _ m);
      try regroup; try assumption; lengths.
  - exists (j + length (head_text r) + 2
            - (length (qualifier ++ old_variant r) + length ws + 1) - 1).
    split; [|right; right; lengths].
    apply (match_transfer_eq K
             (pre ++ ((qualifier ++ old_variant r) ++ ws ++ [lparen])
                ++ arg ++ [rparen])
             (pre ++ head_text r ++ arg ++ tail_text)
             suf [] []
             (occurrence (old_variant r) pre ws arg suf) _ j _ m);
      try (rewrite app_nil_r; regroup); try assumption; lengths.
Qed.

Lemma match_elsewhere (j m : nat) :
  K <> old_variant r ->
  match_here K (skipn j (occurrence (old_variant r) pre ws arg suf))
  = Some m ->
  j <> length pre.
Proof.
  intros Hne Hm ->. apply Hne.
  unfold occurrence in Hm. rewrite skipn_app_exact in Hm.
  destruct (tidy_inv r Hr) as (HJ & _).
  exact (match_here_same K (old_variant r) _ _ _ HK HJ Hm
           (match_here_intro (old_variant r) ws _ Hws)).
Qed.

(** If another rule would splice after the splice, it would have
    spliced before it. *)
Lemma fires_before_splice :
  K <> old_variant r ->
  fires K (spliced r pre arg suf) = true ->
  fires K (occurrence (old_variant r) pre ws arg suf) = true.
Proof.
  intros Hne Hf.
  destruct (fires_inv _ _ Hf) as (s' & n & Hm' & Hleft' & Hc').
  destruct (match_back s' n Hm' Hc') as (s & Hm & Hc & Hrel).
  apply (fires_intro K _ s n Hm); [|exact Hc].
  intros j Hj.
  destruct (match_here K (skipn j (occurrence (old_variant r) pre ws arg suf)))
    as [m|] eqn:Hjm; [|reflexivity].
  exfalso.
  destruct (match_forth j m (match_elsewhere j m Hne Hjm) Hjm)
    as (j' & Hjm' & Hrel').
  pose proof (window_long _ _ _ (match_here_window K _ j m HK Hjm)) as Lm.
  pose proof (window_long _ _ _ (match_here_window K _ s n HK Hm)) as Ln.
  assert (Hlt : j' < s') by lia.
  rewrite (Hleft' j' Hlt) in Hjm'. discriminate.
Qed.

Lemma occurrence_closes :
  closes (skipn (length pre + (length (qualifier ++ old_variant r)
                               + length ws + 1))
                (occurrence (old_variant r) pre ws arg suf)).
Proof.
  replace (occurrence (old_variant r) pre ws arg suf)
    with ((pre ++ (qualifier ++ old_variant r) ++ ws ++ [lparen])
            ++ arg ++ rparen :: suf)
    by regroup.
  replace (length pre + (length (qualifier ++ old_variant r)
                         + length ws + 1))
    with (length (pre ++ (qualifier ++ old_variant r) ++ ws ++ [lparen]))
    by lengths.
  rewrite skipn_app_exact. unfold closes, final.
  rewrite (nested_closes arg suf 0 Harg). reflexivity.
Qed.

(** A match whose parenthesis is never closed is still there, and still
    not closed, after the splice of a closed one. *)
Lemma unterminated_persists (j : nat) :
  unterminated_at K (occurrence (old_variant r) pre ws arg suf) j ->
  exists j', unterminated_at K (spliced r pre arg suf) j'.
Proof.
  intros (m & Hm & Hopen). rewrite find_matching_close_final in Hopen.
  assert (Hj : j <> length pre).
  { intros ->. apply Hopen. destruct (tidy_inv r Hr) as (HJ & _).
    pose proof (match_here_intro (old_variant r) ws
                  (arg ++ rparen :: suf) Hws) as HmJ.
    pose proof Hm as Hm0.
    unfold occurrence in Hm0. rewrite skipn_app_exact in Hm0.
    pose proof (match_here_same K (old_variant r) _ _ _ HK HJ Hm0 HmJ)
      as HKJ.
    rewrite HKJ, HmJ in Hm0. injection Hm0 as <-.
    exact occurrence_closes. }
  destruct (match_forth j m Hj Hm) as (j' & Hm' & Hrel').
  exists j', m. split; [exact Hm'|].
  rewrite find_matching_close_final. intros Hc'.
  destruct (match_back j' m Hm' Hc') as (s & Hms & Hcs & Hrel).
  pose proof (window_long _ _ _ (match_here_window K _ j m HK Hm)) as Lm.
  pose proof (head_length r) as HL.
  assert (s = j) by lia. subst s. exact (Hopen Hcs).
Qed.

End Preserve.

(** ** Idempotence of the pass *)

Section Idempotence.

Lemma replacement_spliced (r : rule) (pre arg suf : buffer) :
  pre ++ replacement r arg ++ suf = spliced r pre arg suf.
Proof.
  unfold replacement, spliced, head_text, tail_text.
  rewrite <- ?app_assoc. reflexivity.
Qed.

(** A splice of a tidy rule does not make another identifier fire. *)
Lemma idle_after_splice (K filepath : buffer) (r : rule) (b b' : buffer) :
  identifier K = true -> tidy r = true ->
  fires K b = false ->
  iterate filepath r b = Spliced b' ->
  fires K b' = false.
Proof.
  intros HK Hr Hidle Hit.
  destruct (list_eq_dec N.eq_dec K (old_variant r)) as [->|Hne].
  - assert (fires (old_variant r) b = true)
      by (apply (iterate_spliced_fires filepath); eexists; exact Hit).
    congruence.
  - destruct (iterate_spliced_inv _ _ _ _ Hit)
      as (pre & ws & arg & suf & -> & Hws & Harg & _ & ->).
    rewrite replacement_spliced.
    destruct (fires K (spliced r pre arg suf)) eqn:Hf; [|reflexivity].
    rewrite (fires_before_splice K r pre ws arg suf HK Hr Hws Harg Hne Hf)
      in Hidle.
    discriminate.
Qed.

Lemma rule_loop_keeps_idle (K filepath : buffer) (r : rule) (n : nat) :
  identifier K = true -> tidy r = true ->
  forall b b' out,
    fires K b = false ->
    rule_loop n filepath r b = Some (b', out) ->
    fires K b' = false.
Proof.
  intros HK Hr. induction n as [|n IH]; intros b b' out Hidle H;
    [discriminate|].
  simpl in H. destruct (iterate filepath r b) as [|b1|line] eqn:Hit.
  - injection H as <- _. exact Hidle.
  - exact (IH b1 b' out (idle_after_splice K filepath r b b1 HK Hr Hidle Hit)
             H).
  - injection H as <- _. exact Hidle.
Qed.

Lemma apply_rules_keeps_idle (K filepath : buffer) (rules : list rule) :
  identifier K = true -> all_tidy rules ->
  forall b b' out,
    fires K b = false ->
    apply_rules rules filepath b = Some (b', out) ->
    fires K b' = false.
Proof.
  intros HK Hall. induction Hall as [|r rules Hr _ IH];
    intros b b' out Hidle H; simpl in H.
  - injection H as <- _. exact Hidle.
  - destruct (rule_pass filepath r b) as [[b1 o1]|] eqn:Hp; [|discriminate].
    destruct (apply_rules rules filepath b1) as [[b2 o2]|] eqn:Ha;
      [|discriminate].
    injection H as <- _.
    apply (IH b1 b2 o2); [|exact Ha].
    exact (rule_loop_keeps_idle K filepath r _ HK Hr b b1 o1 Hidle Hp).
Qed.

(** After the pass no rule would splice. *)
Lemma apply_rules_all_idle (filepath : buffer) (rules : list rule) :
  all_tidy rules ->
  forall b b' out,
    apply_rules rules filepath b = Some (b', out) ->
    Forall (fun r => fires (old_variant r) b' = false) rules.
Proof.
  intros Hall. induction Hall as [|r rules Hr Hrules IH];
    intros b b' out H; simpl in H; [constructor|].
  destruct (rule_pass filepath r b) as [[b1 o1]|] eqn:Hp; [|discriminate].
  destruct (apply_rules rules filepath b1) as [[b2 o2]|] eqn:Ha;
    [|discriminate].
  injection H as <- _. constructor.
  - destruct (tidy_inv r Hr) as (HJ & _).
    apply (apply_rules_keeps_idle _ filepath rules HJ Hrules b1 b2 o2);
      [|exact Ha].
    exact (proj1 (rule_loop_result filepath r _ _ _ _ Hp)).
  - exact (IH b1 b2 o2 Ha).
Qed.

(** Where no rule would splice the pass leaves the buffer as it is. *)
Lemma apply_rules_idle (filepath : buffer) (rules : list rule) (b : buffer) :
  Forall (fun r => fires (old_variant r) b = false) rules ->
  exists out, apply_rules rules filepath b = Some (b, out).
Proof.
  intros H. induction H as [|r rules Hr _ [out IH]]; simpl.
  - eexists; reflexivity.
  - destruct (rule_loop_idle filepath r (count_open b) b Hr) as [o1 Ho1].
    unfold rule_pass. rewrite Ho1, IH. eexists; reflexivity.
Qed.

Lemma apply_rules_total (filepath : buffer) (rules : list rule) :
  all_tidy rules ->
  forall b, exists res, apply_rules rules filepath b = Some res.
Proof.
  intros Hall. induction Hall as [|r rules Hr _ IH]; intros b; simpl.
  - eexists; reflexivity.
  - destruct (rule_loop_enough_fuel filepath r (S (count_open b)) Hr b
                ltac:(lia)) as [[b1 o1] Hp].
    unfold rule_pass. rewrite Hp.
    destruct (IH b1) as [[b2 o2] Ha]. rewrite Ha. eexists; reflexivity.
Qed.

(** The pass of any list of tidy rules is idempotent. *)
Lemma apply_rules_idempotent (filepath : buffer) (rules : list rule)
    (b once : buffer) (out : list buffer) :
  all_tidy rules ->
  apply_rules rules filepath b = Some (once, out) ->
  exists out', apply_rules rules filepath once = Some (once, out').
Proof.
  intros Hall H. apply apply_rules_idle.
  exact (apply_rules_all_idle filepath rules Hall b once out H).
Qed.

Lemma transformations_tidy : all_tidy transformations.
Proof. repeat constructor. Qed.

End Idempotence.

(** ** An unterminated occurrence stops the loop of its rule *)

Section Failure.

Local Open Scope nat_scope.

Lemma unterminated_after_iterate (K filepath : buffer) (r : rule)
    (b b' : buffer) (j : nat) :
  identifier K = true -> tidy r = true ->
  iterate filepath r b = Spliced b' ->
  unterminated_at K b j ->
  exists j', unterminated_at K b' j'.
Proof.
  intros HK Hr Hit Hu.
  destruct (iterate_spliced_inv _ _ _ _ Hit)
    as (pre & ws & arg & suf & -> & Hws & Harg & _ & ->).
  rewrite replacement_spliced.
  exact (unterminated_persists K r pre ws arg suf HK Hr Hws Harg j Hu).
Qed.

Lemma unterminated_found (K b : buffer) (j : nat) :
  unterminated_at K b j -> pattern_search K b <> None.
Proof.
  intros (m & Hm & _) Hnone.
  rewrite (search_from_none K b 0 Hnone j) in Hm. discriminate.
Qed.

(** With an unterminated occurrence in the buffer, the loop of the rule
    ends by printing the error line, at a buffer on which the scan
    fails. *)
Lemma rule_loop_reports (filepath : buffer) (r : rule) :
  tidy r = true ->
  forall n b j,
    count_open b < n ->
    unterminated_at (old_variant r) b j ->
    exists b',
      rule_loop n filepath r b = Some (b', [error_line filepath])
      /\ iterate filepath r b' = Unbalanced (error_line filepath).
Proof.
  intros Hr. destruct (tidy_inv r Hr) as (HJ & _).
  induction n as [|n IH]; intros b j Hlt Hu; [lia|]. simpl.
  destruct (iterate filepath r b) as [|b1|line] eqn:Hit.
  - apply iterate_nomatch in Hit.
    destruct (unterminated_found _ _ _ Hu Hit).
  - destruct (unterminated_after_iterate _ _ _ _ _ _ HJ Hr Hit Hu)
      as [j1 Hu1].
    apply (IH b1 j1); [|exact Hu1].
    pose proof (splice_count_open _ _ _ _ Hr Hit). lia.
  - destruct (iterate_unbalanced_inv _ _ _ _ Hit) as (-> & _).
    exists b. split; [reflexivity|exact Hit].
Qed.

End Failure.

(** ** One iteration, from the shape of the buffer *)

Section Shapes.

Local Open Scope nat_scope.

Lemma iterate_spliced_intro (filepath : buffer) (r : rule)
    (pre ws arg suf : buffer) :
  spaces ws -> nested arg ->
  (forall j, j < length pre ->
     match_here (old_variant r)
                (skipn j (occurrence (old_variant r) pre ws arg suf)) = None) ->
  iterate filepath r (occurrence (old_variant r) pre ws arg suf)
  = Spliced (pre ++ replacement r arg ++ suf).
Proof.
  intros Hws Harg Hleft.
  set (b := occurrence (old_variant r) pre ws arg suf) in *.
  set (xl := length (qualifier ++ old_variant r) + length ws + 1).
  assert (Hm : match_here (old_variant r) (skipn (length pre) b) = Some xl).
  { unfold b, occurrence. rewrite skipn_app_exact.
    apply match_here_intro. exact Hws. }
  assert (Hrest : skipn (length pre + xl) b = arg ++ rparen :: suf).
  { unfold b, xl.
    replace (occurrence (old_variant r) pre ws arg suf)
      with ((pre ++ (qualifier ++ old_variant r) ++ ws ++ [lparen])
              ++ arg ++ rparen :: suf)
      by (unfold occurrence; rewrite <- ?app_assoc; reflexivity).
    replace (length pre + (length (qualifier ++ old_variant r)
                           + length ws + 1))
      with (length (pre ++ (qualifier ++ old_variant r) ++ ws ++ [lparen]))
      by (rewrite !length_app; cbn [length]; lia).
    apply skipn_app_exact. }
  unfold iterate.
  rewrite (pattern_search_intro _ b (length pre) xl Hm Hleft).
  rewrite find_matching_close_list, Hrest.
  rewrite (nested_closes arg suf (length pre + xl) Harg).
  cbn [Z.eqb]. cbv zeta.
  assert (Hpre : firstn (length pre) b = pre)
    by (unfold b, occurrence; apply firstn_app_exact).
  assert (Ha : slice b (length pre + xl)
                     (length pre + xl + length arg + 1 - 1) = arg).
  { unfold slice. rewrite Hrest.
    replace (length pre + xl + length arg + 1 - 1 - (length pre + xl))
      with (length arg) by lia.
    apply firstn_app_exact. }
  assert (Hsuf : skipn (length pre + xl + length arg + 1) b = suf).
  { replace (length pre + xl + length arg + 1)
      with (length (arg ++ [rparen]) + (length pre + xl))
      by (rewrite length_app; cbn [length]; lia).
    rewrite <- skipn_skipn, Hrest.
    replace (arg ++ rparen :: suf) with ((arg ++ [rparen]) ++ suf)
      by (rewrite <- app_assoc; reflexivity).
    apply skipn_app_exact. }
  rewrite Hpre, Ha, Hsuf. reflexivity.
Qed.

(** No match in the text before the occurrence: the occurrence is the
    leftmost match. *)
Lemma leftmost_from_prefix (r : rule) (pre ws arg suf : buffer) :
  tidy r = true -> spaces ws ->
  pattern_search (old_variant r) pre = None ->
  forall j, j < length pre ->
    match_here (old_variant r)
               (skipn j (occurrence (old_variant r) pre ws arg suf)) = None.
Proof.
  intros Hr Hws Hnone j Hj.
  destruct (tidy_inv r Hr) as (HJ & _).
  destruct (match_here (old_variant r)
              (skipn j (occurrence (old_variant r) pre ws arg suf)))
    as [m|] eqn:Hm; [|reflexivity].
  exfalso.
  pose proof (match_here_window _ _ j m HJ Hm) as W.
  pose proof (occurrence_window r pre ws arg suf Hr Hws) as WJ.
  pose proof (window_long _ _ _ W) as L.
  destruct (Nat.le_gt_cases (j + m) (length pre)) as [Hin|Hout].
  - assert (Hp : match_here (old_variant r) (skipn j pre) = Some m).
    { apply (match_transfer_eq (old_variant r) [] [] pre
               ((qualifier ++ old_variant r) ++ ws ++ lparen :: arg
                  ++ rparen :: suf) []
               (occurrence (old_variant r) pre ws arg suf) pre j j m);
        try reflexivity; try assumption; try (simpl; lia).
      rewrite app_nil_r. reflexivity. }
    rewrite (search_from_none _ pre 0 Hnone j) in Hp. discriminate.
  - destruct (window_overlap _ _ _ _ _ W WJ ltac:(lia) ltac:(lia)). lia.
Qed.

Lemma rule_pass_nomatch (filepath : buffer) (r : rule) (b : buffer) :
  pattern_search (old_variant r) b = None ->
  rule_pass filepath r b = Some (b, []).
Proof.
  intros H. apply (iterate_nomatch filepath) in H.
  unfold rule_pass. simpl. rewrite H. reflexivity.
Qed.

Lemma buffer_eqb_refl (b : buffer) : buffer_eqb b b = true.
Proof.
  induction b as [|x b IH]; simpl; [reflexivity|].
  rewrite N.eqb_refl. exact IH.
Qed.

Lemma rule_loop_any_fuel (filepath : buffer) (r : rule) (b : buffer) :
  tidy r = true ->
  exists res,
    forall fuel, count_open b < fuel -> rule_loop fuel filepath r b = Some res.
Proof.
  intros Hr.
  destruct (rule_loop_enough_fuel filepath r (S (count_open b)) Hr b
              ltac:(lia)) as [res Hres].
  exists res. intros fuel Hfuel.
  apply (rule_loop_more_fuel filepath r (S (count_open b))); [lia|exact Hres].
Qed.

Lemma find_matching_close_end (b : buffer) (start : nat) :
  snd (find_matching_close b start) = 0%Z
  \/ length b <= fst (find_matching_close b start).
Proof.
  rewrite find_matching_close_list.
  destruct (scan_list_depth (skipn start b) start 1 ltac:(lia))
    as (_ & _ & _ & [H|H]); [left; exact H|right].
  rewrite H, length_skipn. lia.
Qed.

Lemma apply_rules_nomatch (filepath : buffer) (rules : list rule)
    (b : buffer) :
  (forall r, In r rules -> pattern_search (old_variant r) b = None) ->
  apply_rules rules filepath b = Some (b, []).
Proof.
  induction rules as [|r rules IH]; intros H; simpl; [reflexivity|].
  rewrite (rule_pass_nomatch filepath r b (H r (or_introl eq_refl))).
  rewrite IH by (intros r' Hr'; apply H; right; exact Hr').
  reflexivity.
Qed.

(** No identifier is matched at a position of the replacement head. *)
Lemma head_not_matched (K : buffer) (r : rule) (pre arg suf : buffer)
    (j : nat) :
  identifier K = true -> tidy r = true ->
  length pre <= j < length pre + length (head_text r) ->
  match_here K (skipn j (pre ++ replacement r arg ++ suf)) = None.
Proof.
  intros HK Hr Hj. rewrite replacement_spliced.
  destruct (match_here K (skipn j (spliced r pre arg suf))) as [m|] eqn:Hm;
    [|reflexivity].
  exfalso.
  pose proof (match_here_window K _ j m HK Hm) as W.
  pose proof (window_long _ _ _ W) as L.
  destruct (window_after_splice r pre arg suf Hr j m W) as [H|[H|H]]; lia.
Qed.

End Shapes.

(** * The claims *)

Section Claims.

Local Open Scope nat_scope.

(** C1. The scan starts with one parenthesis open, reads one character
    at a time, counts an opening parenthesis up and a closing one down,
    and stops just past the character that brings the count to 0: the
    count it returns is the depth of the text read, every shorter text
    read from the start has positive depth, and it stops at count 0 or
    at the end of the buffer; at count 0 the last character read is a
    closing parenthesis.  On "(a(b)c)" from index 1 it returns index 7,
    just past the last parenthesis. *)
Theorem find_matching_close_balance :
  find_matching_close (text "(a(b)c)") 1 = (7, 0%Z)
  /\ forall (buf : buffer) (start : nat),
       start <= fst (find_matching_close buf start)
       /\ (0 <= snd (find_matching_close buf start))%Z
       /\ snd (find_matching_close buf start)
          = depth (slice buf start (fst (find_matching_close buf start)))
                  1%Z
       /\ (forall j, start <= j < fst (find_matching_close buf start) ->
             (0 < depth (slice buf start j) 1%Z)%Z)
       /\ (snd (find_matching_close buf start) = 0%Z
           \/ length buf <= fst (find_matching_close buf start))
       /\ (snd (find_matching_close buf start) = 0%Z ->
             start < fst (find_matching_close buf start)
             /\ nth_error buf (fst (find_matching_close buf start) - 1)
                = Some rparen).
Proof.
  split; [reflexivity|]. intros buf start.
  rewrite find_matching_close_list.
  pose proof (scan_list_bounds (skipn start buf) start 1) as Hbd.
  destruct (scan_list_depth (skipn start buf) start 1 ltac:(lia))
    as (H1 & H2 & H3 & H4).
  split; [lia|]. split; [exact H1|]. split; [exact H2|].
  split; [|split].
  - intros j Hj. unfold slice. apply H3. lia.
  - destruct H4 as [H4|H4]; [left; exact H4|right].
    rewrite H4, length_skipn. lia.
  - intros H0.
    destruct (scan_list_last (skipn start buf) start 1 ltac:(lia) H0)
      as [Hlt Hn].
    split; [exact Hlt|].
    rewrite nth_error_skipn in Hn.
    replace (start + (fst (scan_list (skipn start buf) start 1) - start - 1))
      with (fst (scan_list (skipn start buf) start 1) - 1) in Hn by lia.
    exact Hn.
Qed.

(** C2, as the spec states it, fails: after the pass of the Validation
    rule over [AppError::Validation(AppError::Validation(1))] the inner
    occurrence is not left as it was. *)
Lemma nested_argument_not_kept :
  ~ exists out,
      rule_pass (text "src/a.rs")
        (Rule (text "Validation") (text "Validation") (text "reason"))
        (text "AppError::Validation(AppError::Validation(1))")
      = Some (text "AppError::Validation { reason: AppError::Validation(1) }",
              out).
Proof. intros [out H]. vm_compute in H. discriminate. Qed.

(** C2, amended.  One splice copies the argument as it is: after the
    first iteration the inner occurrence is untouched.  The loop of the
    rule then searches the new buffer from its beginning, finds the inner
    occurrence and rewrites it too, so the pass of the rule leaves
    [AppError::Validation { reason: AppError::Validation { reason: 1 } }]
    (and likewise for a rule Foo -> Bar with field x).  In general the
    pass of a rule only ends at a buffer on which that rule would not
    splice again. *)
Theorem nested_argument_rewritten_by_loop :
  forall filepath : buffer,
    iterate filepath
      (Rule (text "Validation") (text "Validation") (text "reason"))
      (text "AppError::Validation(AppError::Validation(1))")
    = Spliced
        (text "AppError::Validation { reason: AppError::Validation(1) }")
    /\ rule_pass filepath
         (Rule (text "Validation") (text "Validation") (text "reason"))
         (text "AppError::Validation(AppError::Validation(1))")
       = Some
           (text
              "AppError::Validation { reason: AppError::Validation { reason: 1 } }",
            [])
    /\ iterate filepath (Rule (text "Foo") (text "Bar") (text "x"))
         (text "AppError::Foo(AppError::Foo(1))")
       = Spliced (text "AppError::Bar { x: AppError::Foo(1) }")
    /\ rule_pass filepath (Rule (text "Foo") (text "Bar") (text "x"))
         (text "AppError::Foo(AppError::Foo(1))")
       = Some (text "AppError::Bar { x: AppError::Bar { x: 1 } }", [])
    /\ (forall (r : rule) (b b' : buffer) (out : list buffer),
          rule_pass filepath r b = Some (b', out) ->
          fires (old_variant r) b' = false).
Proof.
  intros filepath. do 4 (split; [reflexivity|]).
  intros r b b' out H.
  exact (proj1 (rule_loop_result filepath r _ b b' out H)).
Qed.

Lemma nested_argument_rewritten_by_loop_witness :
  rule_pass (text "src/a.rs")
    (Rule (text "InternalError") (text "Internal") (text "message"))
    (text "f(AppError::InternalError(g(AppError::InternalError(1))))")
  = Some
      (text
         "f(AppError::Internal { message: g(AppError::Internal { message: 1 }) })",
       [])
  /\ fires (text "InternalError")
       (text
          "f(AppError::Internal { message: g(AppError::Internal { message: 1 }) })")
     = false.
Proof.
  split; [reflexivity|].
  apply (proj2 (proj2 (proj2 (proj2
           (nested_argument_rewritten_by_loop (text "src/a.rs")))))
           (Rule (text "InternalError") (text "Internal") (text "message"))
           (text "f(AppError::InternalError(g(AppError::InternalError(1))))")
           _ []).
  reflexivity.
Defined.

(** C3. The whole pass is idempotent: for every buffer the pass over
    [transformations] returns a buffer, and the pass over that buffer
    returns it unchanged; a second call of [refactor_file] writes
    nothing. *)
Theorem full_rewrite_idempotent :
  forall filepath content : buffer,
    exists once out1 out2,
      apply_rules transformations filepath content = Some (once, out1)
      /\ apply_rules transformations filepath once = Some (once, out2)
      /\ refactor_file filepath once = Some (Outcome out2 None).
Proof.
  intros filepath content.
  destruct (apply_rules_total filepath transformations transformations_tidy
              content) as [[once out1] H1].
  destruct (apply_rules_idempotent filepath transformations content once
              out1 transformations_tidy H1) as [out2 H2].
  exists once, out1, out2. split; [exact H1|]. split; [exact H2|].
  unfold refactor_file. rewrite H2, buffer_eqb_refl. reflexivity.
Qed.

(** C4, as the spec states it, fails: a buffer with an unterminated
    occurrence is not always left unmodified by the rule.  In
    [AppError::Validation(1) AppError::Validation(u] the second
    occurrence is never closed, and the rule rewrites the first. *)
Lemma unterminated_buffer_modified :
  ~ forall (filepath : buffer) (r : rule) (b : buffer) (s : nat),
      tidy r = true ->
      unterminated_at (old_variant r) b s ->
      exists out, rule_pass filepath r b = Some (b, out).
Proof.
  intros H.
  destruct (H (text "src/a.rs")
              (Rule (text "Validation") (text "Validation") (text "reason"))
              (text "AppError::Validation(1) AppError::Validation(u")
              24 eq_refl) as [out Hout].
  - exists 21. split; [reflexivity|]. vm_compute. discriminate.
  - vm_compute in Hout. discriminate.
Qed.

(** C4, amended.  For every buffer in which an occurrence of the rule's
    trigger is never closed, the loop of that rule ends at a buffer [b']
    on which the scan fails: that iteration changes nothing and prints
    the error line, the loop of the rule stops there, and the remaining
    rules are run on [b'].  Splices the rule made before, for earlier
    occurrences, are kept; when the unterminated occurrence is the
    leftmost match (as in [AppError::Validation(unterminated]) the rule
    leaves the buffer as it was. *)
Theorem unterminated_occurrence_stops_rule :
  forall (filepath : buffer) (r : rule) (rules : list rule) (b : buffer)
         (s : nat),
    tidy r = true ->
    unterminated_at (old_variant r) b s ->
    exists b',
      rule_pass filepath r b = Some (b', [error_line filepath])
      /\ iterate filepath r b' = Unbalanced (error_line filepath)
      /\ apply_rules (r :: rules) filepath b
         = match apply_rules rules filepath b' with
           | Some (final, out) => Some (final, error_line filepath :: out)
           | None => None
           end
      /\ ((forall j, j < s ->
             match_here (old_variant r) (skipn j b) = None) ->
          b' = b).
Proof.
  intros filepath r rules b s Hr Hu.
  destruct (rule_loop_reports filepath r Hr (S (count_open b)) b s
              ltac:(lia) Hu) as (b' & Hpass & Hit).
  exists b'. split; [exact Hpass|]. split; [exact Hit|]. split.
  - cbn [apply_rules]. unfold rule_pass. rewrite Hpass.
    destruct (apply_rules rules filepath b') as [[final out]|]; reflexivity.
  - intros Hleft. destruct Hu as (n & Hm & Hopen).
    assert (Hb : iterate filepath r b = Unbalanced (error_line filepath)).
    { unfold iterate. rewrite (pattern_search_intro _ b s n Hm Hleft).
      destruct (find_matching_close b (s + n)) as [idx c]. simpl in Hopen.
      destruct (Z.eqb_spec c 0); [contradiction|reflexivity]. }
    simpl in Hpass. rewrite Hb in Hpass. injection Hpass as <-. reflexivity.
Qed.

Lemma unterminated_occurrence_stops_rule_witness :
  tidy (Rule (text "Validation") (text "Validation") (text "reason")) = true
  /\ unterminated_at (text "Validation")
       (text "AppError::Validation(1) AppError::Validation(u") 24
  /\ exists b',
       rule_pass (text "src/a.rs")
         (Rule (text "Validation") (text "Validation") (text "reason"))
         (text "AppError::Validation(1) AppError::Validation(u")
       = Some (b', [error_line (text "src/a.rs")])
       /\ iterate (text "src/a.rs")
            (Rule (text "Validation") (text "Validation") (text "reason")) b'
          = Unbalanced (error_line (text "src/a.rs"))
       /\ apply_rules
            (Rule (text "Validation") (text "Validation") (text "reason")
               :: [])
            (text "src/a.rs")
            (text "AppError::Validation(1) AppError::Validation(u")
          = match apply_rules [] (text "src/a.rs") b' with
            | Some (final, out) =>
                Some (final, error_line (text "src/a.rs") :: out)
            | None => None
            end
       /\ ((forall j, j < 24 ->
              match_here (text "Validation")
                (skipn j
                   (text "AppError::Validation(1) AppError::Validation(u"))
              = None) ->
           b' = text "AppError::Validation(1) AppError::Validation(u").
Proof.
  assert (Hu : unterminated_at (text "Validation")
                 (text "AppError::Validation(1) AppError::Validation(u") 24).
  { exists 21. split; [reflexivity|]. vm_compute. discriminate. }
  split; [reflexivity|]. split; [exact Hu|].
  exact (unterminated_occurrence_stops_rule (text "src/a.rs")
           (Rule (text "Validation") (text "Validation") (text "reason"))
           [] (text "AppError::Validation(1) AppError::Validation(u") 24
           eq_refl Hu).
Defined.

(** C5, as the spec states it, fails: the diagnostic does not report the
    offset of the trigger.  No function recovers the offset from the line
    printed: the same line is printed for triggers at offsets 0 and 1. *)
Lemma diagnostic_without_offset :
  ~ exists decode : buffer -> nat,
      forall (filepath : buffer) (r : rule) (b : buffer) (s e : nat)
             (line : buffer),
        pattern_search (old_variant r) b = Some (s, e) ->
        iterate filepath r b = Unbalanced line ->
        decode line = s.
Proof.
  intros [decode H].
  pose proof (H (text "src/a.rs")
                (Rule (text "Validation") (text "Validation") (text "reason"))
                (text "AppError::Validation(") 0 21 _ eq_refl eq_refl) as H0.
  pose proof (H (text "src/a.rs")
                (Rule (text "Validation") (text "Validation") (text "reason"))
                (text " AppError::Validation(") 1 22 _ eq_refl eq_refl) as H1.
  rewrite H0 in H1. discriminate.
Qed.

(** C5, amended.  Whenever the scan after the leftmost match reaches the
    end of the buffer with the count still above 0, the iteration fails:
    it leaves the buffer as it is, the loop of the rule stops, and the
    one line printed is
    [Error: Could not find matching parenthesis in <filepath>], which
    names the file and neither the rule nor the offset. *)
Theorem unbalanced_diagnostic_names_file :
  forall (filepath : buffer) (r : rule) (b : buffer) (s e : nat),
    pattern_search (old_variant r) b = Some (s, e) ->
    (0 < snd (find_matching_close b e))%Z ->
    length b <= fst (find_matching_close b e)
    /\ iterate filepath r b
       = Unbalanced
           (text "Error: Could not find matching parenthesis in "
              ++ filepath)
    /\ rule_pass filepath r b
       = Some (b, [text "Error: Could not find matching parenthesis in "
                     ++ filepath]).
Proof.
  intros filepath r b s e Hs Hopen.
  pose proof (find_matching_close_end b e) as Hend.
  assert (Hit : iterate filepath r b = Unbalanced (error_line filepath)).
  { unfold iterate. rewrite Hs.
    destruct (find_matching_close b e) as [idx c]. simpl in Hopen.
    destruct (Z.eqb_spec c 0); [lia|reflexivity]. }
  split; [destruct Hend as [Hend|Hend]; [lia|exact Hend]|].
  split; [exact Hit|].
  unfold rule_pass. simpl. rewrite Hit. reflexivity.
Qed.

Lemma unbalanced_diagnostic_names_file_witness :
  pattern_search (text "Validation") (text " AppError::Validation(unterminated")
  = Some (1, 22)
  /\ (0 < snd (find_matching_close
                 (text " AppError::Validation(unterminated") 22))%Z
  /\ length (text " AppError::Validation(unterminated")
     <= fst (find_matching_close
               (text " AppError::Validation(unterminated") 22)
  /\ iterate (text "src/a.rs")
       (Rule (text "Validation") (text "Validation") (text "reason"))
       (text " AppError::Validation(unterminated")
     = Unbalanced
         (text "Error: Could not find matching parenthesis in "
            ++ text "src/a.rs")
  /\ rule_pass (text "src/a.rs")
       (Rule (text "Validation") (text "Validation") (text "reason"))
       (text " AppError::Validation(unterminated")
     = Some (text " AppError::Validation(unterminated",
             [text "Error: Could not find matching parenthesis in "
                ++ text "src/a.rs"]).
Proof.
  split; [reflexivity|]. split; [reflexivity|].
  apply (unbalanced_diagnostic_names_file (text "src/a.rs")
           (Rule (text "Validation") (text "Validation") (text "reason"))
           (text " AppError::Validation(unterminated") 1 22);
    reflexivity.
Defined.

(** C6. Every splice keeps the text before the match and the text after
    the closing parenthesis as they are and puts
    [AppError::<new_variant> { <field_name>: <arg> }] between them, where
    [arg] is the text between the parenthesis of the match and the
    closing one the scan found, copied as it is. *)
Theorem splice_frame :
  forall (filepath : buffer) (r : rule) (b b' : buffer),
    iterate filepath r b = Spliced b' ->
    exists pre ws arg suf,
      b = pre ++ (text "AppError::" ++ old_variant r) ++ ws
            ++ lparen :: arg ++ rparen :: suf
      /\ spaces ws
      /\ nested arg
      /\ pattern_search (old_variant r) b
         = Some (length pre,
                 length pre + length (text "AppError::" ++ old_variant r)
                 + length ws + 1)
      /\ find_matching_close b
           (length pre + length (text "AppError::" ++ old_variant r)
            + length ws + 1)
         = (length pre + length (text "AppError::" ++ old_variant r)
            + length ws + 1 + length arg + 1, 0%Z)
      /\ b' = pre
              ++ (text "AppError::" ++ new_variant r ++ text " { "
                    ++ field_name r ++ text ": " ++ arg ++ text " }")
              ++ suf.
Proof.
  intros filepath r b b' Hit.
  destruct (iterate_spliced_inv _ _ _ _ Hit)
    as (pre & ws & arg & suf & Hb & Hws & Harg & Hleft & Hb').
  exists pre, ws, arg, suf.
  split; [exact Hb|]. split; [exact Hws|]. split; [exact Harg|].
  assert (Hm : match_here (old_variant r) (skipn (length pre) b)
               = Some (length (qualifier ++ old_variant r) + length ws + 1)).
  { rewrite Hb. unfold occurrence. rewrite skipn_app_exact.
    apply match_here_intro. exact Hws. }
  split; [|split; [|exact Hb']].
  - rewrite (pattern_search_intro _ b _ _ Hm Hleft). f_equal. f_equal.
    fold qualifier. lia.
  - fold qualifier. rewrite find_matching_close_list.
    replace (skipn (length pre + length (qualifier ++ old_variant r)
                    + length ws + 1) b)
      with (arg ++ rparen :: suf).
    + apply nested_closes. exact Harg.
    + rewrite Hb.
      replace (occurrence (old_variant r) pre ws arg suf)
        with ((pre ++ (qualifier ++ old_variant r) ++ ws ++ [lparen])
                ++ arg ++ rparen :: suf)
        by (unfold occurrence; rewrite <- ?app_assoc; reflexivity).
      replace (length pre + length (qualifier ++ old_variant r)
               + length ws + 1)
        with (length (pre ++ (qualifier ++ old_variant r) ++ ws
                        ++ [lparen]))
        by (rewrite !length_app; cbn [length]; lia).
      symmetry. apply skipn_app_exact.
Qed.

Lemma splice_frame_witness :
  iterate (text "src/a.rs")
    (Rule (text "InternalError") (text "Internal") (text "message"))
    (text "return Err(AppError::InternalError (f(x, y)));")
  = Spliced (text "return Err(AppError::Internal { message: f(x, y) });")
  /\ exists pre ws arg suf,
       text "return Err(AppError::InternalError (f(x, y)));"
       = pre ++ (text "AppError::" ++ text "InternalError") ++ ws
           ++ lparen :: arg ++ rparen :: suf
       /\ spaces ws
       /\ nested arg
       /\ pattern_search (text "InternalError")
            (text "return Err(AppError::InternalError (f(x, y)));")
          = Some (length pre,
                  length pre
                  + length (text "AppError::" ++ text "InternalError")
                  + length ws + 1)
       /\ find_matching_close
            (text "return Err(AppError::InternalError (f(x, y)));")
            (length pre + length (text "AppError::" ++ text "InternalError")
             + length ws + 1)
          = (length pre + length (text "AppError::" ++ text "InternalError")
             + length ws + 1 + length arg + 1, 0%Z)
       /\ text "return Err(AppError::Internal { message: f(x, y) });"
          = pre
            ++ (text "AppError::" ++ text "Internal" ++ text " { "
                  ++ text "message" ++ text ": " ++ arg ++ text " }")
            ++ suf.
Proof.
  split; [reflexivity|].
  apply (splice_frame (text "src/a.rs")
           (Rule (text "InternalError") (text "Internal") (text "message"))
           (text "return Err(AppError::InternalError (f(x, y)));")
           (text "return Err(AppError::Internal { message: f(x, y) });")).
  reflexivity.
Defined.

(** C7. A buffer in which the pattern of no rule matches is returned as
    it is by the pass, nothing is printed, the buffer compares equal to
    the content read, and nothing is written back. *)
Theorem no_trigger_no_write :
  forall filepath content : buffer,
    (forall r, In r transformations ->
       pattern_search (old_variant r) content = None) ->
    apply_rules transformations filepath content = Some (content, [])
    /\ buffer_eqb content content = true
    /\ refactor_file filepath content = Some (Outcome [] None).
Proof.
  intros filepath content H.
  pose proof (apply_rules_nomatch filepath transformations content H) as Ha.
  split; [exact Ha|]. split; [apply buffer_eqb_refl|].
  unfold refactor_file. rewrite Ha, buffer_eqb_refl. reflexivity.
Qed.

Lemma no_trigger_no_write_witness :
  (forall r, In r transformations ->
     pattern_search (old_variant r)
       (text "fn main() { let e = AppError::NotFound(id); }") = None)
  /\ apply_rules transformations (text "src/main.rs")
       (text "fn main() { let e = AppError::NotFound(id); }")
     = Some (text "fn main() { let e = AppError::NotFound(id); }", [])
  /\ buffer_eqb (text "fn main() { let e = AppError::NotFound(id); }")
       (text "fn main() { let e = AppError::NotFound(id); }") = true
  /\ refactor_file (text "src/main.rs")
       (text "fn main() { let e = AppError::NotFound(id); }")
     = Some (Outcome [] None).
Proof.
  assert (H : forall r, In r transformations ->
                pattern_search (old_variant r)
                  (text "fn main() { let e = AppError::NotFound(id); }")
                = None)
    by (intros r [<-|[<-|[<-|[<-|[]]]]]; reflexivity).
  split; [exact H|].
  exact (no_trigger_no_write (text "src/main.rs")
           (text "fn main() { let e = AppError::NotFound(id); }") H).
Defined.

(** C8. The rules are run once each, in the order of the list, each on
    the buffer the one before left.  With the rules Foo -> Bar (field x)
    and Bar -> Baz (field y), [AppError::Foo(1)] becomes
    [AppError::Bar { x: 1 }]: the second rule does not fire on what the
    first one wrote.  For rules like the script's, no pattern matches at
    any position of the head [AppError::<new_variant> { <field_name>: ]
    a splice wrote. *)
Theorem rules_once_in_order :
  (forall (r : rule) (rules : list rule) (filepath b : buffer),
     apply_rules (r :: rules) filepath b
     = match rule_pass filepath r b with
       | None => None
       | Some (b', out) =>
           match apply_rules rules filepath b' with
           | None => None
           | Some (final, out') => Some (final, out ++ out')
           end
       end)
  /\ (forall filepath : buffer,
        apply_rules [Rule (text "Foo") (text "Bar") (text "x");
                     Rule (text "Bar") (text "Baz") (text "y")]
          filepath (text "AppError::Foo(1)")
        = Some (text "AppError::Bar { x: 1 }", []))
  /\ (forall filepath : buffer,
        apply_rules transformations filepath
          (text "AppError::InternalError(1)")
        = Some (text "AppError::Internal { message: 1 }", []))
  /\ (forall (K : buffer) (r : rule) (pre arg suf : buffer) (j : nat),
        identifier K = true -> tidy r = true ->
        length pre <= j < length pre + length (head_text r) ->
        match_here K (skipn j (pre ++ replacement r arg ++ suf)) = None).
Proof.
  split; [reflexivity|]. split; [reflexivity|]. split; [reflexivity|].
  exact head_not_matched.
Qed.

Lemma rules_once_in_order_witness :
  identifier (text "Bar") = true
  /\ tidy (Rule (text "Foo") (text "Bar") (text "x")) = true
  /\ length (text "let e = ") <= 8
     < length (text "let e = ")
       + length (head_text (Rule (text "Foo") (text "Bar") (text "x")))
  /\ match_here (text "Bar")
       (skipn 8
          (text "let e = "
             ++ replacement (Rule (text "Foo") (text "Bar") (text "x"))
                  (text "1")
             ++ text ";"))
     = None.
Proof.
  split; [reflexivity|]. split; [reflexivity|].
  split; [simpl; lia|].
  apply (proj2 (proj2 (proj2 rules_once_in_order)) (text "Bar")
           (Rule (text "Foo") (text "Bar") (text "x"))
           (text "let e = ") (text "1") (text ";") 8);
    [reflexivity|reflexivity|simpl; lia].
Defined.

(** C9. Processing one file ends.  The parenthesis scan runs for at most
    as many iterations as there are characters left (more fuel changes
    nothing); the loop of each rule of the script ends within one
    iteration more than the buffer has opening parentheses, since every
    splice removes one (more fuel changes nothing); so [refactor_file]
    returns for every file path and content. *)
Theorem refactor_file_terminates :
  (forall (buf : buffer) (start fuel : nat) (c : Z),
     length buf - start <= fuel ->
     scan_loop fuel buf start c
     = scan_loop (length buf - start) buf start c)
  /\ (forall (filepath : buffer) (r : rule) (b : buffer),
        In r transformations ->
        exists res,
          forall fuel, count_open b < fuel ->
            rule_loop fuel filepath r b = Some res)
  /\ (forall filepath content : buffer,
        exists o, refactor_file filepath content = Some o).
Proof.
  split; [|split].
  - intros buf start fuel c H. apply scan_loop_more_fuel. exact H.
  - intros filepath r b Hin. apply rule_loop_any_fuel.
    pose proof transformations_tidy as Ht. unfold all_tidy in Ht.
    rewrite Forall_forall in Ht. exact (Ht r Hin).
  - intros filepath content. unfold refactor_file.
    destruct (apply_rules_total filepath transformations
                transformations_tidy content) as [[b out] H].
    rewrite H. destruct (buffer_eqb b content); eexists; reflexivity.
Qed.

Lemma refactor_file_terminates_witness :
  length (text "(a(b)c)") - 1 <= 100
  /\ scan_loop 100 (text "(a(b)c)") 1 1%Z
     = scan_loop (length (text "(a(b)c)") - 1) (text "(a(b)c)") 1 1%Z
  /\ In (Rule (text "AssetError") (text "Asset") (text "message"))
        transformations
  /\ exists res,
       forall fuel,
         count_open (text "AppError::AssetError(f(AppError::AssetError(1)))")
         < fuel ->
         rule_loop fuel (text "src/a.rs")
           (Rule (text "AssetError") (text "Asset") (text "message"))
           (text "AppError::AssetError(f(AppError::AssetError(1)))")
         = Some res.
Proof.
  split; [simpl; lia|]. split.
  - apply (proj1 refactor_file_terminates). simpl; lia.
  - split; [right; right; left; reflexivity|].
    apply (proj1 (proj2 refactor_file_terminates)).
    right; right; left; reflexivity.
Defined.

(** C10. The whitespace between the trigger and the opening parenthesis
    is inside the replaced span and is dropped: whatever the run [ws] of
    whitespace (newlines included), the leftmost occurrence is matched
    and rewritten, and the result has exactly one space between
    [AppError::<new_variant>] and the opening brace. *)
Theorem whitespace_before_parenthesis_dropped :
  forall (filepath : buffer) (r : rule) (pre ws arg suf : buffer),
    tidy r = true ->
    spaces ws ->
    nested arg ->
    pattern_search (old_variant r) pre = None ->
    iterate filepath r
      (pre ++ (text "AppError::" ++ old_variant r) ++ ws
         ++ lparen :: arg ++ rparen :: suf)
    = Spliced
        (pre
         ++ (text "AppError::" ++ new_variant r ++ text " { "
               ++ field_name r ++ text ": " ++ arg ++ text " }")
         ++ suf).
Proof.
  intros filepath r pre ws arg suf Hr Hws Harg Hpre.
  exact (iterate_spliced_intro filepath r pre ws arg suf Hws Harg
           (leftmost_from_prefix r pre ws arg suf Hr Hws Hpre)).
Qed.

Lemma whitespace_before_parenthesis_dropped_witness :
  tidy (Rule (text "MalformedEnvToml") (text "EnvTomlError") (text "message"))
  = true
  /\ spaces [32%N; 10%N; 9%N]
  /\ nested (text "e.to_string()")
  /\ pattern_search (text "MalformedEnvToml") (text "Err(") = None
  /\ iterate (text "src/a.rs")
       (Rule (text "MalformedEnvToml") (text "EnvTomlError")
          (text "message"))
       (text "Err(" ++ (text "AppError::" ++ text "MalformedEnvToml")
          ++ [32%N; 10%N; 9%N]
          ++ lparen :: text "e.to_string()" ++ rparen :: text ")")
     = Spliced
         (text "Err(AppError::EnvTomlError { message: e.to_string() })").
Proof.
  assert (Hws : spaces [32%N; 10%N; 9%N]) by (repeat constructor).
  split; [reflexivity|]. split; [exact Hws|].
  split; [reflexivity|]. split; [reflexivity|].
  exact (whitespace_before_parenthesis_dropped (text "src/a.rs")
           (Rule (text "MalformedEnvToml") (text "EnvTomlError")
              (text "message"))
           (text "Err(") [32%N; 10%N; 9%N] (text "e.to_string()") (text ")")
           eq_refl Hws eq_refl eq_refl).
Defined.

End Claims.

(** * More about the pass *)

(** ** What a splice does to the matches of the patterns *)

Section Matches.

Local Open Scope nat_scope.

Variables (K : buffer) (r : rule) (pre ws arg suf : buffer).
Hypothesis HK : identifier K = true.
Hypothesis Hr : tidy r = true.

Ltac regroup :=
  unfold spliced, occurrence;
  rewrite <- ?app_assoc; reflexivity.

Ltac lengths :=
  do 3 (rewrite ?length_app in *; cbn [length] in *);
  change (length tail_text) with 2 in *; lia.

(** A splice makes no match: what is matched after it was matched
    before. *)
Lemma match_not_made (s' n : nat) :
  match_here K (skipn s' (spliced r pre arg suf)) = Some n ->
  exists s,
    match_here K (skipn s (occurrence (old_variant r) pre ws arg suf))
    = Some n.
Proof.
  intros Hm.
  pose proof (match_here_window K _ s' n HK Hm) as W.
  pose proof (match_here_fits K _ _ _ Hm) as Hn. unfold spliced in Hn.
  destruct (window_after_splice r pre arg suf Hr s' n W)
    as [Hpre|[[Ha1 Ha2]|Hsuf]].
  - exists s'.
    apply (match_transfer_eq K [] [] pre
             (head_text r ++ arg ++ tail_text ++ suf)
             ((qualifier ++ old_variant r) ++ ws ++ lparen :: arg
                ++ rparen :: suf)
             (spliced r pre arg suf) _ s' s' n);
      try reflexivity; try assumption; simpl; lia.
  - exists (s' + (length (qualifier ++ old_variant r) + length ws + 1)
            - length (head_text r)).
    apply (match_transfer_eq K (pre ++ head_text r)
             (pre ++ (qualifier ++ old_variant r) ++ ws ++ [lparen])
             arg (tail_text ++ suf) (rparen :: suf)
             (spliced r pre arg suf) _ s' _ n);
      try regroup; try assumption; lengths.
  - exists (s' + (length (qualifier ++ old_variant r) + length ws + 1) + 1
            - length (head_text r) - 2).
    apply (match_transfer_eq K
             (pre ++ head_text r ++ arg ++ tail_text)
             (pre ++ ((qualifier ++ old_variant r) ++ ws ++ [lparen])
                ++ arg ++ [rparen])
             suf [] []
             (spliced r pre arg suf) _ s' _ n);
      try (rewrite app_nil_r; regroup); try assumption; lengths.
Qed.

End Matches.

(** ** The error lines, from the buffer the pass ends with *)

Section ErrorLines.

Local Open Scope nat_scope.

Lemma search_none_after_splice (K filepath : buffer) (r : rule)
    (b b' : buffer) :
  identifier K = true -> tidy r = true ->
  iterate filepath r b = Spliced b' ->
  pattern_search K b = None ->
  pattern_search K b' = None.
Proof.
  intros HK Hr Hit Hnone.
  destruct (iterate_spliced_inv _ _ _ _ Hit)
    as (pre & ws & arg & suf & -> & Hws & _ & _ & ->).
  rewrite replacement_spliced.
  apply search_from_none_intro. intros j.
  destruct (match_here K (skipn j (spliced r pre arg suf))) as [n|] eqn:Hm;
    [|reflexivity].
  destruct (match_not_made K r pre ws arg suf HK Hr j n Hm) as [s Hs].
  rewrite (search_from_none K _ 0 Hnone s) in Hs. discriminate.
Qed.

Lemma search_none_after_loop (K filepath : buffer) (r : rule) (n : nat) :
  identifier K = true -> tidy r = true ->
  forall b b' out,
    pattern_search K b = None ->
    rule_loop n filepath r b = Some (b', out) ->
    pattern_search K b' = None.
Proof.
  intros HK Hr. induction n as [|n IH]; intros b b' out Hnone H;
    [discriminate|].
  simpl in H. destruct (iterate filepath r b) as [|b1|line] eqn:Hit.
  - injection H as <- _. exact Hnone.
  - exact (IH b1 b' out
             (search_none_after_splice K filepath r b b1 HK Hr Hit Hnone) H).
  - injection H as <- _. exact Hnone.
Qed.

Lemma search_none_after_pass (K filepath : buffer) (rules : list rule) :
  identifier K = true -> all_tidy rules ->
  forall b b' out,
    pattern_search K b = None ->
    apply_rules rules filepath b = Some (b', out) ->
    pattern_search K b' = None.
Proof.
  intros HK Hall. induction Hall as [|r rules Hr _ IH];
    intros b b' out Hnone H; simpl in H.
  - injection H as <- _. exact Hnone.
  - destruct (rule_pass filepath r b) as [[b1 o1]|] eqn:Hp; [|discriminate].
    destruct (apply_rules rules filepath b1) as [[b2 o2]|] eqn:Ha;
      [|discriminate].
    injection H as <- _.
    apply (IH b1 b2 o2); [|exact Ha].
    exact (search_none_after_loop K filepath r _ HK Hr b b1 o1 Hnone Hp).
Qed.

Lemma unterminated_after_loop (K filepath : buffer) (r : rule) (n : nat) :
  identifier K = true -> tidy r = true ->
  forall b b' out,
    (exists j, unterminated_at K b j) ->
    rule_loop n filepath r b = Some (b', out) ->
    exists j', unterminated_at K b' j'.
Proof.
  intros HK Hr. induction n as [|n IH]; intros b b' out Hu H;
    [discriminate|].
  simpl in H. destruct (iterate filepath r b) as [|b1|line] eqn:Hit.
  - injection H as <- _. exact Hu.
  - destruct Hu as [j Hu].
    exact (IH b1 b' out
             (unterminated_after_iterate K filepath r b b1 j HK Hr Hit Hu) H).
  - injection H as <- _. exact Hu.
Qed.

Lemma unterminated_after_pass (K filepath : buffer) (rules : list rule) :
  identifier K = true -> all_tidy rules ->
  forall b b' out,
    (exists j, unterminated_at K b j) ->
    apply_rules rules filepath b = Some (b', out) ->
    exists j', unterminated_at K b' j'.
Proof.
  intros HK Hall. induction Hall as [|r rules Hr _ IH];
    intros b b' out Hu H; simpl in H.
  - injection H as <- _. exact Hu.
  - destruct (rule_pass filepath r b) as [[b1 o1]|] eqn:Hp; [|discriminate].
    destruct (apply_rules rules filepath b1) as [[b2 o2]|] eqn:Ha;
      [|discriminate].
    injection H as <- _.
    apply (IH b1 b2 o2); [|exact Ha].
    exact (unterminated_after_loop K filepath r _ HK Hr b b1 o1 Hu Hp).
Qed.

(** How the loop of a rule ends: without a match left and nothing
    printed, or at an unterminated leftmost match with the error line. *)
Lemma rule_loop_ends (filepath : buffer) (r : rule) (n : nat) :
  forall b b' out,
    rule_loop n filepath r b = Some (b', out) ->
    (out = [] /\ pattern_search (old_variant r) b' = None)
    \/ (out = [error_line filepath]
        /\ exists j, unterminated_at (old_variant r) b' j).
Proof.
  induction n as [|n IH]; intros b b' out H; [discriminate|]. simpl in H.
  destruct (iterate filepath r b) as [|b1|line] eqn:Hit.
  - injection H as <- <-. left. split; [reflexivity|].
    apply (iterate_nomatch filepath). exact Hit.
  - exact (IH _ _ _ H).
  - injection H as <- <-.
    destruct (iterate_unbalanced_inv _ _ _ _ Hit)
      as (-> & _ & s & e & Hs & Hopen).
    right. split; [reflexivity|].
    unfold pattern_search in Hs.
    destruct (search_from_some _ _ _ _ _ Hs) as (k & m & -> & -> & Hk & _).
    exists k, m. split; [exact Hk|exact Hopen].
Qed.

Lemma apply_rules_error_lines (filepath : buffer) (rules : list rule) :
  all_tidy rules ->
  forall b final out,
    apply_rules rules filepath b = Some (final, out) ->
    out = error_lines filepath rules final.
Proof.
  intros Hall. induction Hall as [|r rules Hr Hrules IH];
    intros b final out H; simpl in H.
  - injection H as _ <-. reflexivity.
  - destruct (rule_pass filepath r b) as [[b1 o1]|] eqn:Hp; [|discriminate].
    destruct (apply_rules rules filepath b1) as [[b2 o2]|] eqn:Ha;
      [|discriminate].
    injection H as <- <-.
    destruct (tidy_inv r Hr) as (HJ & _).
    unfold error_lines. cbn [flat_map]. fold (error_lines filepath rules b2).
    rewrite <- (IH b1 b2 o2 Ha). f_equal.
    destruct (rule_loop_ends filepath r _ b b1 o1 Hp)
      as [[-> Hnone]|[-> Hu]].
    + rewrite (search_none_after_pass _ filepath rules HJ Hrules b1 b2 o2
                 Hnone Ha).
      reflexivity.
    + destruct (unterminated_after_pass _ filepath rules HJ Hrules b1 b2 o2
                  Hu Ha) as [j Hj].
      pose proof (unterminated_found _ _ _ Hj) as Hfound.
      destruct (pattern_search (old_variant r) b2); [reflexivity|].
      contradiction.
Qed.

(** X1. The lines the pass prints can be read off the buffer it ends
    with: for each rule of the script, in order, the error line if the
    pattern of the rule still matches somewhere in that buffer, and
    nothing otherwise. *)
Theorem errors_tell_remaining_triggers :
  forall (filepath content final : buffer) (out : list buffer),
    apply_rules transformations filepath content = Some (final, out) ->
    out = error_lines filepath transformations final.
Proof.
  intros filepath content final out H.
  exact (apply_rules_error_lines filepath transformations
           transformations_tidy content final out H).
Qed.

Lemma errors_tell_remaining_triggers_witness :
  apply_rules transformations (text "src/a.rs")
    (text "AppError::AssetError(a) AppError::Validation(f(1) AppError::AssetError(b)")
  = Some
      (text
         "AppError::Asset { message: a } AppError::Validation(f(1) AppError::Asset { message: b }",
       [error_line (text "src/a.rs")])
  /\ [error_line (text "src/a.rs")]
     = error_lines (text "src/a.rs") transformations
         (text
            "AppError::Asset { message: a } AppError::Validation(f(1) AppError::Asset { message: b }").
Proof.
  split; [reflexivity|].
  apply (errors_tell_remaining_triggers (text "src/a.rs")
           (text "AppError::AssetError(a) AppError::Validation(f(1) AppError::AssetError(b)")).
  reflexivity.
Defined.

(** X2. A pass that prints nothing has migrated everything: in the
    buffer it ends with, the pattern of no rule of the script matches at
    any position. *)
Theorem silent_pass_leaves_no_trigger :
  forall (filepath content final : buffer),
    apply_rules transformations filepath content = Some (final, []) ->
    forall r j,
      In r transformations ->
      match_here (old_variant r) (skipn j final) = None.
Proof.
  intros filepath content final H r j Hin.
  pose proof (apply_rules_error_lines filepath transformations
                transformations_tidy content final [] H) as Hout.
  assert (Hnone : pattern_search (old_variant r) final = None).
  { unfold error_lines in Hout. symmetry in Hout.
    assert (Hall : forall x, In x transformations ->
              match pattern_search (old_variant x) final with
              | None => []
              | Some _ => [error_line filepath]
              end = []).
    { intros x Hx.
      destruct (pattern_search (old_variant x) final) eqn:E; [|reflexivity].
      exfalso. pose proof (in_flat_map
        (fun r0 => match pattern_search (old_variant r0) final with
                   | None => []
                   | Some _ => [error_line filepath]
                   end) transformations (error_line filepath)) as [_ Hfm].
      rewrite Hout in Hfm. apply Hfm. exists x. split; [exact Hx|].
      rewrite E. left. reflexivity. }
    specialize (Hall r Hin).
    destruct (pattern_search (old_variant r) final); [discriminate|].
    reflexivity. }
  exact (search_from_none _ final 0 Hnone j).
Qed.

Lemma silent_pass_leaves_no_trigger_witness :
  apply_rules transformations (text "src/a.rs")
    (text "f(AppError::InternalError(g(AppError::AssetError(1))))")
  = Some
      (text
         "f(AppError::Internal { message: g(AppError::Asset { message: 1 }) })",
       [])
  /\ In (Rule (text "AssetError") (text "Asset") (text "message"))
        transformations
  /\ match_here (text "AssetError")
       (skipn 34
          (text
             "f(AppError::Internal { message: g(AppError::Asset { message: 1 }) })"))
     = None.
Proof.
  split; [reflexivity|].
  split; [right; right; left; reflexivity|].
  apply (silent_pass_leaves_no_trigger (text "src/a.rs")
           (text "f(AppError::InternalError(g(AppError::AssetError(1))))")
           _ eq_refl
           (Rule (text "AssetError") (text "Asset") (text "message")) 34).
  right; right; left; reflexivity.
Defined.

End ErrorLines.

(** ** Parentheses and writes *)

Section Counts.

Local Open Scope nat_scope.

Lemma buffer_eqb_eq (a : buffer) :
  forall b, buffer_eqb a b = true <-> a = b.
Proof.
  induction a as [|x a IH]; intros [|y b]; simpl; split; intros H;
    try reflexivity; try discriminate.
  - apply andb_true_iff in H as [Hx Hab]. apply N.eqb_eq in Hx.
    apply IH in Hab. congruence.
  - injection H as -> ->. rewrite N.eqb_refl. apply IH. reflexivity.
Qed.

Lemma count_close_app (l1 l2 : buffer) :
  count_close (l1 ++ l2) = count_close l1 + count_close l2.
Proof. unfold count_close. rewrite filter_app, length_app. reflexivity. Qed.

Lemma count_close_cons (x : char) (l : buffer) :
  count_close (x :: l) = (if (rparen =? x)%N then 1 else 0) + count_close l.
Proof.
  unfold count_close. cbn [filter]. destruct (rparen =? x)%N; reflexivity.
Qed.

Lemma plain_counts (l : buffer) :
  plain l -> count_open l = 0 /\ count_close l = 0.
Proof.
  intros H. induction H as [|x l [H1 H2] _ [IH1 IH2]];
    [split; reflexivity|].
  rewrite count_open_cons, count_close_cons, IH1, IH2.
  destruct (N.eqb_spec lparen x); [congruence|].
  destruct (N.eqb_spec rparen x); [congruence|].
  split; reflexivity.
Qed.

(** A splice of a tidy rule takes away one opening and one closing
    parenthesis. *)
Lemma splice_counts (filepath : buffer) (r : rule) (b b' : buffer) :
  tidy r = true ->
  iterate filepath r b = Spliced b' ->
  count_open b = S (count_open b') /\ count_close b = S (count_close b').
Proof.
  intros Hr Hit.
  destruct (iterate_spliced_inv _ _ _ _ Hit)
    as (pre & ws & arg & suf & -> & Hws & _ & _ & ->).
  rewrite replacement_spliced.
  destruct (tidy_inv r Hr) as (HJ & _).
  destruct (plain_counts _ (plain_head r Hr)) as [Ho1 Hc1].
  destruct (plain_counts _ plain_tail) as [Ho2 Hc2].
  destruct (plain_counts _ plain_qualifier) as [Ho3 Hc3].
  destruct (plain_counts _ (plain_identifier _ HJ)) as [Ho5 Hc5].
  destruct (plain_counts _ (plain_spaces ws Hws)) as [Ho4 Hc4].
  unfold occurrence, spliced.
  repeat rewrite ?count_open_app, ?count_open_cons,
    ?count_close_app, ?count_close_cons.
  rewrite Ho1, Hc1, Ho2, Hc2, Ho3, Hc3, Ho4, Hc4, Ho5, Hc5.
  change (lparen =? lparen)%N with true.
  change (rparen =? rparen)%N with true.
  change (lparen =? rparen)%N with false.
  change (rparen =? lparen)%N with false.
  split; lia.
Qed.

Lemma rule_loop_counts (filepath : buffer) (r : rule) (n : nat) :
  tidy r = true ->
  forall b b' out,
    rule_loop n filepath r b = Some (b', out) ->
    count_open b' <= count_open b
    /\ count_open b' + count_close b = count_open b + count_close b'
    /\ (fires (old_variant r) b = true -> count_open b' < count_open b)
    /\ (fires (old_variant r) b = false -> b' = b).
Proof.
  intros Hr. induction n as [|n IH]; intros b b' out H; [discriminate|].
  simpl in H. destruct (iterate filepath r b) as [|b1|line] eqn:Hit.
  - injection H as <- _.
    assert (Hf : fires (old_variant r) b = false).
    { destruct (fires (old_variant r) b) eqn:E; [|reflexivity].
      apply (iterate_spliced_fires filepath) in E as [b2 E]. congruence. }
    repeat split; try lia. rewrite Hf. discriminate.
  - destruct (splice_counts _ _ _ _ Hr Hit) as [Ho Hc].
    destruct (IH b1 b' out H) as (H1 & H2 & _ & _).
    assert (Hf : fires (old_variant r) b = true)
      by (apply (iterate_spliced_fires filepath); eexists; exact Hit).
    repeat split; try lia. rewrite Hf. discriminate.
  - injection H as <- _.
    destruct (iterate_unbalanced_inv _ _ _ _ Hit) as (_ & Hf & _).
    repeat split; try lia. rewrite Hf. discriminate.
Qed.

Lemma apply_rules_counts (filepath : buffer) (rules : list rule) :
  all_tidy rules ->
  forall b b' out,
    apply_rules rules filepath b = Some (b', out) ->
    count_open b' <= count_open b
    /\ count_open b' + count_close b = count_open b + count_close b'
    /\ ((exists r, In r rules /\ fires (old_variant r) b = true) ->
        count_open b' < count_open b).
Proof.
  intros Hall. induction Hall as [|r rules Hr _ IH]; intros b b' out H;
    simpl in H.
  - injection H as <- _. repeat split; try lia.
    intros (r & [] & _).
  - destruct (rule_pass filepath r b) as [[b1 o1]|] eqn:Hp; [|discriminate].
    destruct (apply_rules rules filepath b1) as [[b2 o2]|] eqn:Ha;
      [|discriminate].
    injection H as <- _.
    destruct (rule_loop_counts filepath r _ Hr b b1 o1 Hp)
      as (H1 & H2 & H3 & H4).
    destruct (IH b1 b2 o2 Ha) as (H5 & H6 & H7).
    repeat split; try lia.
    intros (r' & Hin & Hf).
    destruct (fires (old_variant r) b) eqn:Hfr.
    + specialize (H3 eq_refl). lia.
    + specialize (H4 eq_refl). subst b1.
      destruct Hin as [<-|Hin]; [congruence|].
      assert (count_open b2 < count_open b)
        by (apply H7; exists r'; split; assumption).
      lia.
Qed.

(** X3. Parentheses leave in pairs: the pass takes as many closing
    parentheses out of the buffer as opening ones, and adds none. *)
Theorem parentheses_leave_in_pairs :
  forall (filepath content final : buffer) (out : list buffer),
    apply_rules transformations filepath content = Some (final, out) ->
    count_open final <= count_open content
    /\ count_close final <= count_close content
    /\ count_open content - count_open final
       = count_close content - count_close final.
Proof.
  intros filepath content final out H.
  destruct (apply_rules_counts filepath transformations transformations_tidy
              content final out H) as (H1 & H2 & _).
  lia.
Qed.

Lemma parentheses_leave_in_pairs_witness :
  apply_rules transformations (text "src/a.rs")
    (text "g(AppError::AssetError(f(a))) + AppError::Validation(b))")
  = Some
      (text
         "g(AppError::Asset { message: f(a) }) + AppError::Validation { reason: b })",
       [])
  /\ count_open
       (text
          "g(AppError::Asset { message: f(a) }) + AppError::Validation { reason: b })")
     <= count_open
          (text "g(AppError::AssetError(f(a))) + AppError::Validation(b))")
  /\ count_close
       (text
          "g(AppError::Asset { message: f(a) }) + AppError::Validation { reason: b })")
     <= count_close
          (text "g(AppError::AssetError(f(a))) + AppError::Validation(b))")
  /\ count_open
       (text "g(AppError::AssetError(f(a))) + AppError::Validation(b))")
     - count_open
         (text
            "g(AppError::Asset { message: f(a) }) + AppError::Validation { reason: b })")
     = count_close
         (text "g(AppError::AssetError(f(a))) + AppError::Validation(b))")
       - count_close
           (text
              "g(AppError::Asset { message: f(a) }) + AppError::Validation { reason: b })").
Proof.
  split; [reflexivity|].
  apply (parentheses_leave_in_pairs (text "src/a.rs")
           (text "g(AppError::AssetError(f(a))) + AppError::Validation(b))")
           _ []).
  reflexivity.
Defined.

Lemma settled_iff_unchanged (filepath content final : buffer)
    (out : list buffer) :
  apply_rules transformations filepath content = Some (final, out) ->
  (final = content <-> settled content).
Proof.
  intros H. split.
  - intros ->.
    destruct (apply_rules_counts filepath transformations
                transformations_tidy content content out H) as (_ & _ & H3).
    unfold settled. apply Forall_forall. intros r Hin.
    destruct (fires (old_variant r) content) eqn:Hf; [|reflexivity].
    assert (count_open content < count_open content)
      by (apply H3; exists r; split; assumption).
    lia.
  - intros Hs.
    destruct (apply_rules_idle filepath transformations content Hs)
      as [out' H']. congruence.
Qed.

(** X4. [refactor_file] leaves the file alone exactly when no rule of
    the script has a closed leftmost match in its content; otherwise it
    writes, and what it writes differs from the content, has fewer
    opening parentheses, is text on which no rule would splice again,
    and the last line printed is [Updating <filepath>]. *)
Theorem write_iff_some_rule_fires :
  forall (filepath content : buffer) (o : outcome),
    refactor_file filepath content = Some o ->
    (written o = None <-> settled content)
    /\ (forall new_content,
          written o = Some new_content ->
          new_content <> content
          /\ count_open new_content < count_open content
          /\ settled new_content
          /\ exists errors,
               printed o = errors ++ [text "Updating " ++ filepath]).
Proof.
  intros filepath content o H. unfold refactor_file in H.
  destruct (apply_rules transformations filepath content)
    as [[final out]|] eqn:Ha; [|discriminate].
  pose proof (settled_iff_unchanged filepath content final out Ha) as Hiff.
  destruct (buffer_eqb final content) eqn:Heq; injection H as <-; simpl.
  - apply buffer_eqb_eq in Heq. split.
    + split; [intros _; apply Hiff; exact Heq|reflexivity].
    + intros c Hc. discriminate.
  - assert (Hne : final <> content)
      by (intros E; apply buffer_eqb_eq in E; congruence).
    split.
    + split; [discriminate|]. intros Hs. destruct Hne. apply Hiff. exact Hs.
    + intros c Hc. injection Hc as <-.
      split; [exact Hne|]. split; [|split].
      * destruct (apply_rules_counts filepath transformations
                    transformations_tidy content final out Ha)
          as (_ & _ & H3).
        apply H3.
        apply Exists_exists.
        destruct (Forall_Exists_dec
                    (fun r => fires (old_variant r) content = false)
                    (fun r => bool_dec (fires (old_variant r) content) false)
                    transformations) as [Hall|Hex].
        -- destruct Hne. apply Hiff. exact Hall.
        -- eapply Exists_impl; [|exact Hex]. intros r Hr. simpl in Hr.
           destruct (fires (old_variant r) content); congruence.
      * exact (apply_rules_all_idle filepath transformations
                 transformations_tidy content final out Ha).
      * exists out. reflexivity.
Qed.

Lemma write_iff_some_rule_fires_witness :
  refactor_file (text "src/a.rs")
    (text "Err(AppError::Validation(msg)) AppError::AssetError(u")
  = Some
      (Outcome
         [error_line (text "src/a.rs"); text "Updating " ++ text "src/a.rs"]
         (Some
            (text
               "Err(AppError::Validation { reason: msg }) AppError::AssetError(u")))
  /\ (Some
        (text
           "Err(AppError::Validation { reason: msg }) AppError::AssetError(u")
      = None
      <-> settled
            (text "Err(AppError::Validation(msg)) AppError::AssetError(u"))
  /\ (forall new_content,
        Some
          (text
             "Err(AppError::Validation { reason: msg }) AppError::AssetError(u")
        = Some new_content ->
        new_content
        <> text "Err(AppError::Validation(msg)) AppError::AssetError(u"
        /\ count_open new_content
           < count_open
               (text "Err(AppError::Validation(msg)) AppError::AssetError(u")
        /\ settled new_content
        /\ exists errors,
             [error_line (text "src/a.rs");
              text "Updating " ++ text "src/a.rs"]
             = errors ++ [text "Updating " ++ text "src/a.rs"]).
Proof.
  split; [reflexivity|].
  exact (write_iff_some_rule_fires (text "src/a.rs")
           (text "Err(AppError::Validation(msg)) AppError::AssetError(u")
           (Outcome
              [error_line (text "src/a.rs");
               text "Updating " ++ text "src/a.rs"]
              (Some
                 (text
                    "Err(AppError::Validation { reason: msg }) AppError::AssetError(u")))
           eq_refl).
Defined.

End Counts.

(** ** A match that is never closed *)

Section MissingClose.

Local Open Scope nat_scope.

Lemma final_without_close (l : buffer) :
  Forall (fun c => c <> rparen) l ->
  forall c, (0 < c)%Z -> (c <= final l c)%Z.
Proof.
  intros H. induction H as [|x l Hx _ IH]; intros c Hc.
  - rewrite final_nil. lia.
  - rewrite final_cons by lia.
    destruct (bump_cases x c) as [[_ E]|[[E _]|(_ & _ & E)]];
      [|contradiction|]; rewrite E.
    + specialize (IH (c + 1)%Z ltac:(lia)). lia.
    + exact (IH c Hc).
Qed.

(** X5. When no closing parenthesis follows the leftmost match at all
    (in particular when the buffer ends right after the match), the
    iteration fails: the buffer stays as it is, the loop of the rule
    stops and the error line is printed. *)
Theorem missing_close_is_reported :
  forall (filepath : buffer) (r : rule) (b : buffer) (s e : nat),
    pattern_search (old_variant r) b = Some (s, e) ->
    Forall (fun c => c <> rparen) (skipn e b) ->
    iterate filepath r b = Unbalanced (error_line filepath)
    /\ rule_pass filepath r b = Some (b, [error_line filepath]).
Proof.
  intros filepath r b s e Hs Hno.
  pose proof (final_without_close _ Hno 1%Z ltac:(lia)) as Hopen.
  rewrite <- find_matching_close_final in Hopen.
  assert (Hit : iterate filepath r b = Unbalanced (error_line filepath)).
  { unfold iterate. rewrite Hs.
    destruct (find_matching_close b e) as [idx c]. simpl in Hopen.
    destruct (Z.eqb_spec c 0); [lia|reflexivity]. }
  split; [exact Hit|]. unfold rule_pass. simpl. rewrite Hit. reflexivity.
Qed.

Lemma missing_close_is_reported_witness :
  pattern_search (text "MalformedEnvToml")
    (text "let e = (a); AppError::MalformedEnvToml  (")
  = Some (13, 42)
  /\ Forall (fun c => c <> rparen)
       (skipn 42 (text "let e = (a); AppError::MalformedEnvToml  ("))
  /\ iterate (text "src/a.rs")
       (Rule (text "MalformedEnvToml") (text "EnvTomlError")
          (text "message"))
       (text "let e = (a); AppError::MalformedEnvToml  (")
     = Unbalanced (error_line (text "src/a.rs"))
  /\ rule_pass (text "src/a.rs")
       (Rule (text "MalformedEnvToml") (text "EnvTomlError")
          (text "message"))
       (text "let e = (a); AppError::MalformedEnvToml  (")
     = Some (text "let e = (a); AppError::MalformedEnvToml  (",
             [error_line (text "src/a.rs")]).
Proof.
  split; [reflexivity|]. split; [constructor|].
  apply (missing_close_is_reported (text "src/a.rs")
           (Rule (text "MalformedEnvToml") (text "EnvTomlError")
              (text "message"))
           (text "let e = (a); AppError::MalformedEnvToml  (") 13 42);
    [reflexivity|constructor].
Defined.

End MissingClose.

(** * [main]: the files of a tree *)

Section Files.

Local Open Scope nat_scope.

Lemma store_same (d : buffer -> option buffer) (p c : buffer) :
  store d p c p = Some c.
Proof. unfold store. rewrite buffer_eqb_refl. reflexivity. Qed.

Lemma store_other (d : buffer -> option buffer) (p c q : buffer) :
  q <> p -> store d p c q = d q.
Proof.
  intros H. unfold store. destruct (buffer_eqb q p) eqn:E; [|reflexivity].
  apply buffer_eqb_eq in E. contradiction.
Qed.

Lemma refactor_file_some (filepath content : buffer) :
  exists final out,
    apply_rules transformations filepath content = Some (final, out)
    /\ settled final
    /\ refactor_file filepath content
       = Some (if buffer_eqb final content
               then Outcome out None
               else Outcome (out ++ [text "Updating " ++ filepath])
                            (Some final)).
Proof.
  destruct (apply_rules_total filepath transformations transformations_tidy
              content) as [[final out] H].
  exists final, out. split; [exact H|]. split.
  - exact (apply_rules_all_idle filepath transformations
             transformations_tidy content final out H).
  - unfold refactor_file. rewrite H.
    destruct (buffer_eqb final content); reflexivity.
Qed.

(** One file: an unreadable path raises; a readable one ends with the
    text of the pass, and no other path changes. *)
Lemma refactor_file_at_missing (p : buffer) (w : world) :
  disk w p = None -> refactor_file_at p w = Raised w.
Proof. intros H. unfold refactor_file_at. rewrite H. reflexivity. Qed.

Lemma refactor_file_at_present (p : buffer) (w : world) (c : buffer) :
  disk w p = Some c ->
  exists final out w1,
    apply_rules transformations p c = Some (final, out)
    /\ settled final
    /\ refactor_file_at p w = Finished w1
    /\ disk w1 p = Some final
    /\ (forall q, q <> p -> disk w1 q = disk w q)
    /\ (forall q, disk w q = None <-> disk w1 q = None).
Proof.
  intros Hc.
  destruct (refactor_file_some p c) as (final & out & Ha & Hs & Hr).
  unfold refactor_file_at. rewrite Hc, Hr.
  destruct (buffer_eqb final c) eqn:E.
  - apply buffer_eqb_eq in E. subst final.
    eexists c, out, _. split; [exact Ha|]. split; [exact Hs|].
    split; [reflexivity|]. simpl.
    split; [exact Hc|]. split; [reflexivity|]. intros q. reflexivity.
  - eexists final, out, _. split; [exact Ha|]. split; [exact Hs|].
    split; [reflexivity|]. simpl.
    split; [apply store_same|]. split; [intros q Hq; apply store_other; exact Hq|].
    intros q. destruct (path_eq_dec q p) as [->|Hq].
    + rewrite store_same, Hc. split; discriminate.
    + rewrite store_other by exact Hq. reflexivity.
Qed.

(** On settled text nothing is written; only error lines are printed. *)
Lemma refactor_file_at_settled (p : buffer) (w : world) (c : buffer) :
  disk w p = Some c -> settled c ->
  exists errors,
    refactor_file_at p w = Finished (World (disk w) (console w ++ errors))
    /\ Forall (fun line => line = error_line p) errors.
Proof.
  intros Hc Hs.
  destruct (apply_rules_idle p transformations c Hs) as [out Ha].
  exists out. split.
  - unfold refactor_file_at, refactor_file.
    rewrite Hc, Ha, buffer_eqb_refl. reflexivity.
  - rewrite (apply_rules_error_lines p transformations transformations_tidy
               c c out Ha).
    unfold error_lines. apply Forall_forall. intros line Hin.
    apply in_flat_map in Hin as (r & _ & Hin).
    destruct (pattern_search (old_variant r) c); [|destruct Hin].
    destruct Hin as [<-|[]]. reflexivity.
Qed.

Lemma run_paths_app (l1 l2 : list buffer) :
  forall w,
    run_paths (l1 ++ l2) w
    = match run_paths l1 w with
      | Finished w' => run_paths l2 w'
      | stopped => stopped
      end.
Proof.
  induction l1 as [|p l1 IH]; intros w; simpl; [reflexivity|].
  destruct (refactor_file_at p w); try reflexivity. apply IH.
Qed.

Lemma each_file_paths (root : buffer) (files : list buffer) :
  forall w,
    each_file root files w
    = run_paths
        (map (path_join root) (filter (ends_with (text ".rs")) files)) w.
Proof.
  induction files as [|file files IH]; intros w; simpl; [reflexivity|].
  destruct (ends_with (text ".rs") file); simpl; [|apply IH].
  destruct (refactor_file_at (path_join root file) w); try reflexivity.
  apply IH.
Qed.

(** [main] hands the target paths to [refactor_file], one after the
    other. *)
Lemma main_paths (walk : list (buffer * list buffer * list buffer)) :
  forall w, main walk w = run_paths (targets walk) w.
Proof.
  induction walk as [|[[root dirs] files] walk IH]; intros w; simpl;
    [reflexivity|].
  rewrite run_paths_app, each_file_paths.
  destruct (run_paths _ w); try reflexivity. apply IH.
Qed.


Lemma run_paths_keeps_settled (paths : list buffer) :
  forall w w' q c,
    run_paths paths w = Finished w' ->
    disk w q = Some c -> settled c ->
    disk w' q = Some c.
Proof.
  induction paths as [|p paths IH]; intros w w' q c H Hq Hs; simpl in H.
  - injection H as <-. exact Hq.
  - destruct (path_eq_dec p q) as [->|Hne].
    + destruct (refactor_file_at_settled q w c Hq Hs) as (errors & Hrun & _).
      rewrite Hrun in H. exact (IH _ w' q c H Hq Hs).
    + destruct (disk w p) as [c0|] eqn:Hc.
      * destruct (refactor_file_at_present p w c0 Hc)
          as (final & out & w1 & _ & _ & Hrun & _ & Hother & _).
        rewrite Hrun in H. apply (IH w1 w' q c H); [|exact Hs].
        rewrite Hother by (intros E; apply Hne; symmetry; exact E).
        exact Hq.
      * rewrite (refactor_file_at_missing p w Hc) in H. discriminate.
Qed.

Lemma run_paths_result (paths : list buffer) :
  forall w w',
    run_paths paths w = Finished w' ->
    forall p, In p paths ->
      exists c final out,
        disk w p = Some c
        /\ apply_rules transformations p c = Some (final, out)
        /\ settled final
        /\ disk w' p = Some final.
Proof.
  induction paths as [|p0 paths IH]; intros w w' H p Hin; simpl in H.
  - destruct Hin.
  - destruct (disk w p0) as [c0|] eqn:Hc;
      [|rewrite (refactor_file_at_missing p0 w Hc) in H; discriminate].
    destruct (refactor_file_at_present p0 w c0 Hc)
      as (final & out & w1 & Ha & Hs & Hrun & Hp0 & Hother & _).
    rewrite Hrun in H.
    destruct (path_eq_dec p p0) as [->|Hne].
    + exists c0, final, out. split; [exact Hc|]. split; [exact Ha|].
      split; [exact Hs|].
      exact (run_paths_keeps_settled paths w1 w' p0 final H Hp0 Hs).
    + destruct Hin as [E|Hin]; [congruence|].
      destruct (IH w1 w' H p Hin) as (c & f & o & H1 & H2 & H3 & H4).
      exists c, f, o. rewrite <- (Hother p Hne). repeat split; assumption.
Qed.

Lemma run_paths_settled (paths : list buffer) :
  forall w,
    (forall p, In p paths -> exists c, disk w p = Some c /\ settled c) ->
    exists errors,
      run_paths paths w = Finished (World (disk w) (console w ++ errors))
      /\ Forall (fun line => exists p, In p paths /\ line = error_line p)
           errors.
Proof.
  induction paths as [|p paths IH]; intros w H; simpl.
  - exists []. rewrite app_nil_r. destruct w. split; [reflexivity|constructor].
  - destruct (H p (or_introl eq_refl)) as (c & Hc & Hs).
    destruct (refactor_file_at_settled p w c Hc Hs) as (e1 & Hrun & He1).
    rewrite Hrun.
    destruct (IH (World (disk w) (console w ++ e1))) as (e2 & Hrest & He2).
    { intros q Hq. simpl. apply H. right. exact Hq. }
    exists (e1 ++ e2). simpl in Hrest. rewrite Hrest, app_assoc.
    split; [reflexivity|]. apply Forall_app. split.
    + eapply Forall_impl; [|exact He1]. intros line ->.
      exists p. split; [left; reflexivity|reflexivity].
    + eapply Forall_impl; [|exact He2]. intros line (q & Hq & ->).
      exists q. split; [right; exact Hq|reflexivity].
Qed.







Lemma targets_intro (walk : list (buffer * list buffer * list buffer))
    (root : buffer) (dirs files : list buffer) (file : buffer) :
  In (root, dirs, files) walk -> In file files ->
  ends_with (text ".rs") file = true ->
  In (path_join root file) (targets walk).
Proof.
  intros Hw Hf Hrs. unfold targets. apply in_flat_map.
  exists (root, dirs, files). split; [exact Hw|].
  apply in_map. apply filter_In. split; assumption.
Qed.



(** X7. When [main] finishes, every listed file whose name ends in [.rs]
    holds the text the pass makes of the text it held before, also when
    a path is listed more than once. *)
Theorem main_rewrites_each_listed_file :
  forall (walk : list (buffer * list buffer * list buffer)) (w w' : world)
         (root : buffer) (dirs files : list buffer) (file : buffer),
    main walk w = Finished w' ->
    In (root, dirs, files) walk -> In file files ->
    ends_with (text ".rs") file = true ->
    exists content final out,
      disk w (path_join root file) = Some content
      /\ apply_rules transformations (path_join root file) content
         = Some (final, out)
      /\ disk w' (path_join root file) = Some final.
Proof.
  intros walk w w' root dirs files file H Hw Hf Hrs.
  rewrite main_paths in H.
  destruct (run_paths_result (targets walk) w w' H (path_join root file)
              (targets_intro walk root dirs files file Hw Hf Hrs))
    as (c & final & out & H1 & H2 & _ & H3).
  exists c, final, out. repeat split; assumption.
Qed.

Lemma main_rewrites_each_listed_file_witness :
  exists w',
    main sample_walk sample_world = Finished w'
    /\ In (text "src", [text "app"], [text "lib.rs"; text "notes.txt"])
          sample_walk
    /\ In (text "lib.rs") [text "lib.rs"; text "notes.txt"]
    /\ ends_with (text ".rs") (text "lib.rs") = true
    /\ disk w' (text "src/lib.rs")
       = Some (text "fn f() { AppError::Validation { reason: x } }")
    /\ exists content final out,
         disk sample_world (path_join (text "src") (text "lib.rs"))
         = Some content
         /\ apply_rules transformations
              (path_join (text "src") (text "lib.rs")) content
            = Some (final, out)
         /\ disk w' (path_join (text "src") (text "lib.rs")) = Some final.
Proof.
  eexists. split; [reflexivity|].
  split; [left; reflexivity|]. split; [left; reflexivity|].
  split; [reflexivity|]. split; [reflexivity|].
  apply (main_rewrites_each_listed_file sample_walk sample_world _
           (text "src") [text "app"] [text "lib.rs"; text "notes.txt"]
           (text "lib.rs") eq_refl);
    [left; reflexivity|left; reflexivity|reflexivity].
Defined.

(** X8. Running [main] again over the tree a finished run left writes
    nothing: the second run finishes with the same text at every path,
    and what it prints are error lines of listed files only, no
    [Updating] line. *)
Theorem main_twice_writes_nothing :
  forall (walk : list (buffer * list buffer * list buffer)) (w w' : world),
    main walk w = Finished w' ->
    exists errors,
      main walk w' = Finished (World (disk w') (console w' ++ errors))
      /\ Forall (fun line =>
                   exists p, In p (targets walk) /\ line = error_line p)
           errors.
Proof.
  intros walk w w' H. rewrite main_paths in H. rewrite main_paths.
  apply run_paths_settled. intros p Hp.
  destruct (run_paths_result (targets walk) w w' H p Hp)
    as (c & final & out & _ & _ & Hs & Hfinal).
  exists final. split; assumption.
Qed.

Lemma main_twice_writes_nothing_witness :
  exists w',
    main sample_walk sample_world = Finished w'
    /\ exists errors,
         main sample_walk w'
         = Finished (World (disk w') (console w' ++ errors))
         /\ Forall (fun line =>
                      exists p,
                        In p (targets sample_walk) /\ line = error_line p)
              errors.
Proof.
  eexists. split; [reflexivity|].
  apply (main_twice_writes_nothing sample_walk sample_world). reflexivity.
Defined.



End Files.

(** * The scan reads parentheses only *)

Section Textual.

Local Open Scope nat_scope.

Lemma bump_same (a b : char) (c : Z) :
  (a = lparen <-> b = lparen) -> (a = rparen <-> b = rparen) ->
  bump a c = bump b c.
Proof.
  intros H1 H2. unfold bump.
  destruct (N.eqb_spec a lparen) as [Ea|Ea];
    destruct (N.eqb_spec b lparen) as [Eb|Eb]; try reflexivity;
    try (apply H1 in Ea; contradiction);
    try (apply H1 in Eb; contradiction).
  destruct (N.eqb_spec a rparen) as [Fa|Fa];
    destruct (N.eqb_spec b rparen) as [Fb|Fb]; try reflexivity.
  - apply H2 in Fa. contradiction.
  - apply H2 in Fb. contradiction.
Qed.

Lemma scan_list_same_parens (l1 l2 : buffer) :
  same_parens l1 l2 ->
  forall i c, scan_list l1 i c = scan_list l2 i c.
Proof.
  intros H. induction H as [|a b l1 l2 [H1 H2] _ IH]; intros i c; simpl;
    [reflexivity|].
  destruct (0 <? c)%Z; [|reflexivity].
  rewrite (bump_same a b c H1 H2). apply IH.
Qed.

Lemma same_parens_skipn (l1 l2 : buffer) :
  same_parens l1 l2 -> forall k, same_parens (skipn k l1) (skipn k l2).
Proof.
  intros H. induction H as [|a b l1 l2 Hab H IH]; intros [|k]; simpl;
    try constructor; try assumption. apply IH.
Qed.

(** X10. The scan is textual: it reads nothing but the parentheses.  Two
    buffers with their parentheses at the same positions give the same
    index and count from every start, whatever the other characters are
    (quotes around a parenthesis change nothing). *)
Theorem scan_reads_parentheses_only :
  forall (l1 l2 : buffer) (start : nat),
    same_parens l1 l2 ->
    find_matching_close l1 start = find_matching_close l2 start.
Proof.
  intros l1 l2 start H. rewrite !find_matching_close_list.
  apply scan_list_same_parens. apply same_parens_skipn. exact H.
Qed.

Lemma scan_reads_parentheses_only_witness :
  same_parens (text "f(')', x) + 1") (text "g(_)____)____")
  /\ find_matching_close (text "f(')', x) + 1") 2
     = find_matching_close (text "g(_)____)____") 2
  /\ find_matching_close (text "f(')', x) + 1") 2 = (4, 0%Z).
Proof.
  assert (H : same_parens (text "f(')', x) + 1") (text "g(_)____)____")).
  { repeat (apply Forall2_cons;
            [split; split; intros E; (discriminate E || reflexivity)|]).
    apply Forall2_nil. }
  split; [exact H|]. split; [|reflexivity].
  exact (scan_reads_parentheses_only _ _ 2 H).
Defined.

End Textual.

